(** * Stream Deck driver core ([src/models/base.ts])

    A shallow embedding of [StreamDeckBase]: the packet framer
    ([generateFillImageWrites]), the validation gate, the public drawing
    operations, brightness, teardown and the input-report listener.

    JavaScript numbers are modelled by [Z] (integral values only), Node
    [Buffer]s by lists of bytes held in [Z], thrown exceptions by the [Throw]
    outcome of a result type, and the calls made on the HID handle and on the
    abstract per-model methods by a trace kept in the driver state. *)

From stdpp Require Import base option list list_numbers gmap.
From Stdlib Require Import ZArith Lia.

Local Open Scope Z_scope.

(** ** Exceptions *)

(** One constructor per [throw] site of the source, plus the range error that
    Node's [Buffer] methods raise and the errors of the two collaborators (the
    HID transport and the model's image converter). *)
Inductive error : Type :=
| TypeError_keyIndex          (* 'Expected a valid keyIndex 0 - N' *)
| TypeError_rgbValue          (* 'Expected a valid color RGB value 0 - 255' *)
| TypeError_sourceFormat      (* 'Expected a known color format' *)
| RangeError_imageLength (expected got : Z)
| RangeError_brightness       (* 'Expected brightness percentage ...' *)
| ERR_OUT_OF_RANGE            (* raised by Buffer.alloc / write* / copy *)
| ERR_INVALID_ARG_VALUE       (* raised by Buffer.alloc for an empty fill *)
| HIDError (code : Z)         (* raised by node-hid *)
| ConvertError (code : Z).    (* raised by a model's convertFillImage *)

#[global] Instance error_eq_dec : EqDecision error.
Proof. solve_decision. Defined.

Inductive res (A : Type) : Type :=
| Ok (a : A)
| Throw (e : error).
Arguments Ok {A} a.
Arguments Throw {A} e.

#[global] Instance res_ret : MRet res := λ A a, Ok a.
#[global] Instance res_bind : MBind res := λ A B f r,
  match r with
  | Ok a => f a
  | Throw e => Throw e
  end.

(** ** Node's Buffer *)

Module Buffer.

Abbreviation t := (list Z).

Definition length (b : t) : Z := Z.of_nat (List.length b).

(** [buf[i]]: [None] stands for [undefined]. *)
Definition get (b : t) (i : Z) : option Z :=
  if decide (0 ≤ i) then b !! Z.to_nat i else None.

(** [Buffer.alloc(size)]: zero filled; a negative size is rejected. *)
Definition alloc (size : Z) : res t :=
  if decide (size < 0) then Throw ERR_OUT_OF_RANGE
  else Ok (replicate (Z.to_nat size) 0).

(** [Buffer.from(array)]: every entry is truncated to a byte. *)
Definition from (l : list Z) : t := (λ v, v `mod` 256) <$> l.

(** [Buffer.alloc(size, fill)] with a buffer as fill: the pattern is
    repeated until [size] bytes are written; an empty pattern is rejected
    unless there is nothing to fill. *)
Definition alloc_fill (size : Z) (fill : t) : res t :=
  if decide (size < 0) then Throw ERR_OUT_OF_RANGE
  else
    match fill with
    | [] => if decide (size = 0) then Ok [] else Throw ERR_INVALID_ARG_VALUE
    | _ => Ok (take (Z.to_nat size) (mjoin (replicate (Z.to_nat size) fill)))
    end.

(** [buf.writeUInt8(value, offset)]: the value is range checked first, then
    the offset. *)
Definition writeUInt8 (b : t) (value offset : Z) : res t :=
  if decide (value < 0 ∨ 255 < value) then Throw ERR_OUT_OF_RANGE
  else
    match get b offset with
    | None => Throw ERR_OUT_OF_RANGE
    | Some _ => Ok (<[Z.to_nat offset := value]> b)
    end.

(** [buf.writeUInt16LE(value, offset)]: low byte first. *)
Definition writeUInt16LE (b : t) (value offset : Z) : res t :=
  if decide (value < 0 ∨ 65535 < value) then Throw ERR_OUT_OF_RANGE
  else
    match get b offset, get b (offset + 1) with
    | Some _, Some _ =>
        Ok (<[Z.to_nat (offset + 1) := Z.shiftr value 8]>
              (<[Z.to_nat offset := Z.land value 255]> b))
    | _, _ => Throw ERR_OUT_OF_RANGE
    end.

(** [source.copy(target, targetStart, sourceStart, sourceEnd)]; the
    mutated target is returned. *)
Definition copy (source target : t) (targetStart sourceStart sourceEnd : Z) : res t :=
  if decide (targetStart < 0) then Throw ERR_OUT_OF_RANGE
  else if decide (sourceStart < 0 ∨ length source < sourceStart) then Throw ERR_OUT_OF_RANGE
  else if decide (sourceEnd < 0) then Throw ERR_OUT_OF_RANGE
  else if decide (length target ≤ targetStart ∨ sourceEnd ≤ sourceStart) then Ok target
  else
    let nb := Z.min (Z.min (sourceEnd - sourceStart) (length target - targetStart))
                    (length source - sourceStart) in
    let chunk := take (Z.to_nat nb) (drop (Z.to_nat sourceStart) source) in
    Ok (take (Z.to_nat targetStart) target ++ chunk
          ++ drop (Z.to_nat targetStart + List.length chunk) target).

(** [buf.slice(start, end)]: negative positions count from the end, both
    are clamped to the buffer. *)
Definition clamp (b : t) (i : Z) : Z :=
  if decide (i < 0) then Z.max 0 (length b + i) else Z.min i (length b).

Definition slice (b : t) (start end_ : Z) : t :=
  let s := clamp b start in
  let e := clamp b end_ in
  take (Z.to_nat (e - s)) (drop (Z.to_nat s) b).

End Buffer.

(** ** Types of the module *)

Inductive KeyDirection : Type := ltr | rtl.

Record StreamDeckProperties : Type := {
  COLUMNS : Z;
  ROWS : Z;
  ICON_SIZE : Z;
  KEY_DIRECTION : KeyDirection;
  KEY_DATA_OFFSET : Z
}.

Record OpenStreamDeckOptions : Type := {
  useOriginalKeyOrder : bool;
  resetToLogoOnExit : bool
}.

Inductive SourceFormat : Type := rgb | rgba | bgr | bgra.

#[global] Instance SourceFormat_eq_dec : EqDecision SourceFormat.
Proof. solve_decision. Defined.

(** [sourceFormat.length], the length of the format's name. *)
Definition format_length (f : SourceFormat) : Z :=
  match f with
  | rgb | bgr => 3
  | rgba | bgra => 4
  end.

(** The declared type makes [format] mandatory; the code reads it through
    [options?.format ?? 'rgb'], so an object without the field is modelled
    too. *)
Record FillImageOptions : Type := { format : option SourceFormat }.

Record InternalFillImageOptions : Type := {
  i_format : SourceFormat;
  offset : Z;
  stride : Z
}.

#[global] Instance InternalFillImageOptions_eq_dec : EqDecision InternalFillImageOptions.
Proof. solve_decision. Defined.

(** What a model supplies to [StreamDeckBase]: the constructor's properties
    and options, and the abstract methods. *)
Class StreamDeckModel : Type := {
  deviceProperties : StreamDeckProperties;
  options : OpenStreamDeckOptions;
  transformKeyIndex : Z → Z;
  convertFillImage : Buffer.t → InternalFillImageOptions → res Buffer.t;
  getFillImagePacketLength : Z
}.

(** ** The packet framer *)

Section Framer.
Context `{model : StreamDeckModel}.

Definition getFillImageCommandHeaderLength : Z := 16.

Definition writeFillImageCommandHeader
    (buffer : Buffer.t) (keyIndex partIndex : Z) (isLast : bool) (_bodyLength : Z)
    : res Buffer.t :=
  buffer ← Buffer.writeUInt8 buffer 0x02 0;
  buffer ← Buffer.writeUInt8 buffer 0x01 1;
  buffer ← Buffer.writeUInt16LE buffer partIndex 2;
  (* 3 = 0x00 *)
  buffer ← Buffer.writeUInt8 buffer (if isLast then 1 else 0) 4;
  Buffer.writeUInt8 buffer (keyIndex + 1) 5.

(** One turn of the loop body: the packet built for [part] and the new
    value of [remainingBytes]. *)
Definition fillImagePacket (keyIndex : Z) (byteBuffer : Buffer.t)
    (part remainingBytes : Z) : res (Buffer.t * Z) :=
  let MAX_PACKET_SIZE := getFillImagePacketLength in
  let PACKET_HEADER_LENGTH := getFillImageCommandHeaderLength in
  let MAX_PAYLOAD_SIZE := MAX_PACKET_SIZE - PACKET_HEADER_LENGTH in
  packet ← Buffer.alloc MAX_PACKET_SIZE;
  let byteCount := Z.min remainingBytes MAX_PAYLOAD_SIZE in
  packet ← writeFillImageCommandHeader packet keyIndex part
             (bool_decide (remainingBytes ≤ MAX_PAYLOAD_SIZE)) byteCount;
  let byteOffset := Buffer.length byteBuffer - remainingBytes in
  let remainingBytes := remainingBytes - byteCount in
  packet ← Buffer.copy byteBuffer packet PACKET_HEADER_LENGTH
             byteOffset (byteOffset + byteCount);
  mret (packet, remainingBytes).

(** The [for (let part = 0; remainingBytes > 0; part++)] loop.  [None]
    means that [fuel] turns did not reach the exit. *)
Fixpoint fillImageLoop (fuel : nat) (keyIndex : Z) (byteBuffer : Buffer.t)
    (part remainingBytes : Z) (result : list Buffer.t) : option (res (list Buffer.t)) :=
  if decide (remainingBytes > 0) then
    match fuel with
    | O => None
    | S fuel =>
        match fillImagePacket keyIndex byteBuffer part remainingBytes with
        | Throw e => Some (Throw e)
        | Ok (packet, remainingBytes) =>
            fillImageLoop fuel keyIndex byteBuffer (part + 1) remainingBytes
              (result ++ [packet])
        end
    end
  else Some (Ok result).

(** The part index is written as an unsigned 16-bit field, and the write
    throws beyond it: the loop cannot take more than 65536 full turns, the
    next one throws.  [PART_FUEL] turns therefore always reach the exit or a
    throw (lemmas [fillImageLoop_is_Some] and [fillImageLoop_total]) and the
    default below is never used. *)
Definition PART_FUEL : nat := Z.to_nat 65537.

Definition generateFillImageWrites (keyIndex : Z) (byteBuffer : Buffer.t)
    : res (list Buffer.t) :=
  default (Throw ERR_OUT_OF_RANGE)
    (fillImageLoop PART_FUEL keyIndex byteBuffer 0 (Buffer.length byteBuffer) []).

End Framer.

(** ** Driver state and the monad of its methods *)

(** Calls made on the collaborators of the class: the model's converter,
    the HID handle and the exit-hook release function. *)
Inductive call : Type :=
| Call_convertFillImage (imageBuffer : Buffer.t) (sourceOptions : InternalFillImageOptions)
| Call_write (packet : Buffer.t)
| Call_sendFeatureReport (payload : Buffer.t)
| Call_close
| Call_releaseExitHook.

#[global] Instance call_eq_dec : EqDecision call.
Proof. solve_decision. Defined.

(** Events emitted to the listeners of the driver. *)
Inductive KeyEvent : Type :=
| down (keyIndex : Z)
| up (keyIndex : Z).

#[global] Instance KeyEvent_eq_dec : EqDecision KeyEvent.
Proof. solve_decision. Defined.

Definition event_key (e : KeyEvent) : Z :=
  match e with down k | up k => k end.

(** [keyState] is a JavaScript array: reading a missing index gives
    [undefined] ([None]) and writing any index creates it.  [emitted] and
    [calls] are logs, oldest entry first. *)
Record Driver : Type := {
  keyState : gmap Z bool;
  emitted : list KeyEvent;
  calls : list call
}.

Definition M (A : Type) : Type := Driver → res A * Driver.

#[global] Instance M_ret : MRet M := λ A a d, (Ok a, d).
#[global] Instance M_bind : MBind M := λ A B f m d,
  match m d with
  | (Ok a, d') => f a d'
  | (Throw e, d') => (Throw e, d')
  end.

Definition throw {A} (e : error) : M A := λ d, (Throw e, d).

Definition lift {A} (r : res A) : M A := λ d, (r, d).

(** [try { m } catch (e) { h e }] *)
Definition try_catch {A} (m : M A) (h : error → M A) : M A := λ d,
  match m d with
  | (Ok a, d') => (Ok a, d')
  | (Throw e, d') => h e d'
  end.

(** The driver after one more call was made. *)
Definition logged (c : call) (d : Driver) : Driver :=
  {| keyState := keyState d; emitted := emitted d; calls := calls d ++ [c] |}.

Definition log_call (c : call) : M unit := λ d, (Ok (), logged c d).

Definition emit (e : KeyEvent) : M unit := λ d,
  (Ok (), {| keyState := keyState d; emitted := emitted d ++ [e]; calls := calls d |}).

Definition get_keyState (keyIndex : Z) : M (option bool) := λ d,
  (Ok (keyState d !! keyIndex), d).

Definition set_keyState (keyIndex : Z) (v : bool) : M unit := λ d,
  (Ok (), {| keyState := <[keyIndex := v]> (keyState d); emitted := emitted d; calls := calls d |}).

(** [for (let i = 0; i < bound; i++) body(i)], for a bound that the body
    leaves alone. *)
Fixpoint for_loop (n : nat) (i : Z) (body : Z → M unit) : M unit :=
  match n with
  | O => mret ()
  | S n => body i;; for_loop n (i + 1) body
  end.

Definition for_range (bound : Z) (body : Z → M unit) : M unit :=
  for_loop (Z.to_nat bound) 0 body.

(** [for (const x of xs) body(x)] *)
Fixpoint for_of {A} (xs : list A) (body : A → M unit) : M unit :=
  match xs with
  | [] => mret ()
  | x :: xs => body x;; for_of xs body
  end.

(** The HID handle: every call is logged; [hid_fault] says, from the calls
    made before, whether the call throws and with which error. *)
Class Transport : Type := {
  hid_fault : list call → call → option Z
}.

Definition hid_call `{Transport} (c : call) : M unit := λ d,
  match hid_fault (calls d) c with
  | Some code => (log_call c;; throw (HIDError code)) d
  | None => log_call c d
  end.

(** ** The methods of [StreamDeckBase] *)

Section StreamDeckBase.
Context `{model : StreamDeckModel} `{hid : Transport}.

Definition KEY_COLUMNS : Z := COLUMNS deviceProperties.
Definition KEY_ROWS : Z := ROWS deviceProperties.
Definition NUM_KEYS : Z := KEY_COLUMNS * KEY_ROWS.
Definition ICON_PIXELS : Z := ICON_SIZE deviceProperties * ICON_SIZE deviceProperties.
Definition ICON_BYTES : Z := ICON_PIXELS * 3.

(** *** Validation *)

Definition checkValidKeyIndex (keyIndex : Z) : M unit :=
  if decide (keyIndex < 0 ∨ keyIndex >= NUM_KEYS) then throw TypeError_keyIndex
  else mret ().

Definition checkRGBValue (value : Z) : M unit :=
  if decide (value < 0 ∨ value > 255) then throw TypeError_rgbValue
  else mret ().

Definition checkSourceFormat (format : SourceFormat) : M unit :=
  match format with
  | rgb | rgba | bgr | bgra => mret ()
  end.

(** [options?.format ?? 'rgb'] *)
Definition sourceFormatOf (options : option FillImageOptions) : SourceFormat :=
  default rgb (options ≫= format).

(** *** The input-report listener, [device.on('data', ...)] *)

(** [Boolean(data[i])] *)
Definition keyPressedAt (data : Buffer.t) (i : Z) : bool :=
  match Buffer.get data i with
  | Some v => bool_decide (v ≠ 0)
  | None => false
  end.

Definition onData (data : Buffer.t) : M unit :=
  let data :=
    Buffer.slice data (KEY_DATA_OFFSET deviceProperties) (Buffer.length data - 1) in
  for_range NUM_KEYS (λ i,
    let keyPressed := keyPressedAt data i in
    let keyIndex := transformKeyIndex i in
    previous ← get_keyState keyIndex;
    let stateChanged := bool_decide (previous ≠ Some keyPressed) in
    if stateChanged then
      set_keyState keyIndex keyPressed;;
      if keyPressed then emit (down keyIndex) else emit (up keyIndex)
    else mret ()).

(** *** Drawing *)

Definition fillImageRange (keyIndex : Z) (imageBuffer : Buffer.t)
    (sourceOptions : InternalFillImageOptions) : M unit :=
  checkValidKeyIndex keyIndex;;
  log_call (Call_convertFillImage imageBuffer sourceOptions);;
  byteBuffer ← lift (convertFillImage imageBuffer sourceOptions);
  packets ← lift (generateFillImageWrites keyIndex byteBuffer);
  for_of packets (λ packet, hid_call (Call_write packet)).

Definition fillColor (keyIndex r g b : Z) : M unit :=
  checkValidKeyIndex keyIndex;;
  checkRGBValue r;;
  checkRGBValue g;;
  checkRGBValue b;;
  pixels ← lift (Buffer.alloc_fill ICON_BYTES (Buffer.from [r; g; b]));
  let keyIndex2 := transformKeyIndex keyIndex in
  fillImageRange keyIndex2 pixels
    {| i_format := rgb; offset := 0; stride := ICON_SIZE deviceProperties * 3 |}.

Definition fillImage (keyIndex : Z) (imageBuffer : Buffer.t)
    (options : option FillImageOptions) : M unit :=
  checkValidKeyIndex keyIndex;;
  let sourceFormat := sourceFormatOf options in
  checkSourceFormat sourceFormat;;
  let imageSize := ICON_PIXELS * format_length sourceFormat in
  if decide (Buffer.length imageBuffer ≠ imageSize) then
    throw (RangeError_imageLength imageSize (Buffer.length imageBuffer))
  else
    let keyIndex2 := transformKeyIndex keyIndex in
    fillImageRange keyIndex2 imageBuffer
      {| i_format := sourceFormat; offset := 0;
         stride := ICON_SIZE deviceProperties * format_length sourceFormat |}.

Definition fillPanel (imageBuffer : Buffer.t) (options : option FillImageOptions)
    : M unit :=
  let sourceFormat := sourceFormatOf options in
  checkSourceFormat sourceFormat;;
  let imageSize := ICON_PIXELS * format_length sourceFormat * NUM_KEYS in
  if decide (Buffer.length imageBuffer ≠ imageSize) then
    throw (RangeError_imageLength imageSize (Buffer.length imageBuffer))
  else
    let iconSize := ICON_SIZE deviceProperties * format_length sourceFormat in
    let stride := iconSize * KEY_COLUMNS in
    for_range KEY_ROWS (λ row,
      let rowOffset := stride * row * ICON_SIZE deviceProperties in
      for_range KEY_COLUMNS (λ column,
        let index := row * KEY_COLUMNS in
        let index :=
          match KEY_DIRECTION deviceProperties with
          | ltr => index + column
          | rtl => index + (KEY_COLUMNS - column - 1)
          end in
        let colOffset := column * iconSize in
        fillImageRange index imageBuffer
          {| i_format := sourceFormat; offset := rowOffset + colOffset;
             stride := stride |})).

Definition clearKey (keyIndex : Z) : M unit :=
  checkValidKeyIndex keyIndex;;
  fillColor keyIndex 0 0 0.

Definition clearAllKeys : M unit :=
  for_range NUM_KEYS (λ keyIndex, clearKey keyIndex).

(** *** Feature reports and teardown *)

Definition setBrightness (percentage : Z) : M unit :=
  if decide (percentage < 0 ∨ percentage > 100) then throw RangeError_brightness
  else
    let brightnessCommandBuffer := Buffer.from
      [0x05; 0x55; 0xaa; 0xd1; 0x01; percentage; 0x00; 0x00;
       0x00; 0x00; 0x00; 0x00; 0x00; 0x00; 0x00; 0x00;
       0x00] in
    hid_call (Call_sendFeatureReport brightnessCommandBuffer).

Definition resetToLogo : M unit :=
  let resetCommandBuffer := Buffer.from
    [0x0B; 0x63; 0x00; 0x00; 0x00; 0x00; 0x00; 0x00;
     0x00; 0x00; 0x00; 0x00; 0x00; 0x00; 0x00; 0x00;
     0x00] in
  hid_call (Call_sendFeatureReport resetCommandBuffer).

Definition close : M unit :=
  log_call Call_releaseExitHook;;
  (if resetToLogoOnExit options then
     (* This makes the reset happen much quicker than the default timeout *)
     resetToLogo
   else mret ());;
  hid_call Call_close.

(** The function handed to [exitHook] in the constructor. *)
Definition exitHookHandler : M unit :=
  try_catch close (λ _,
    (* Ignore errors, as device is already closed *)
    mret ()).

(** The driver as the constructor leaves it:
    [new Array(NUM_KEYS).fill(false)] and empty logs. *)
Definition constructed : Driver :=
  {| keyState := list_to_map ((λ i, (i, false)) <$> seqZ 0 NUM_KEYS);
     emitted := [];
     calls := [] |}.

End StreamDeckBase.

(** ** Example models and transports *)

(** Modelled from the spec: the key index transformer of a row-major grid
    with a per-row direction (section 4.1); the [transformKeyIndex] overrides
    of the concrete models are not part of [base.ts]. *)
Definition gridTransformKeyIndex (props : StreamDeckProperties) (logical : Z) : Z :=
  let row := logical `div` COLUMNS props in
  let col := logical `mod` COLUMNS props in
  let nativeColumn :=
    match KEY_DIRECTION props with
    | ltr => col
    | rtl => COLUMNS props - 1 - col
    end in
  row * COLUMNS props + nativeColumn.

(** A grid model whose wire format is the source bytes themselves. *)
Definition gridModel (props : StreamDeckProperties) (opts : OpenStreamDeckOptions)
    (packetLength : Z) : StreamDeckModel :=
  {| deviceProperties := props;
     options := opts;
     transformKeyIndex := gridTransformKeyIndex props;
     convertFillImage := λ imageBuffer _, Ok imageBuffer;
     getFillImagePacketLength := packetLength |}.

(** Two keys in one right-to-left row, 1x1 icons, 4 payload bytes a packet. *)
Definition duo : StreamDeckModel :=
  gridModel
    {| COLUMNS := 2; ROWS := 1; ICON_SIZE := 1; KEY_DIRECTION := rtl;
       KEY_DATA_OFFSET := 1 |}
    {| useOriginalKeyOrder := false; resetToLogoOnExit := true |}
    20.

(** A handle on which every call succeeds. *)
Definition reliable : Transport := {| hid_fault := λ _ _, None |}.

(** A handle that rejects feature reports and accepts everything else. *)
Definition noFeatureReports : Transport :=
  {| hid_fault := λ _ c,
       match c with
       | Call_sendFeatureReport _ => Some 1
       | _ => None
       end |}.

(** The two-key model with a converter that always fails. *)
Definition duoBroken : StreamDeckModel :=
  {| deviceProperties := @deviceProperties duo;
     options := @options duo;
     transformKeyIndex := @transformKeyIndex duo;
     convertFillImage := λ _ _, Throw (ConvertError 7);
     getFillImagePacketLength := 20 |}.

(** ** Closed forms used in the statements *)

(** [ceil(a / b)] for a positive [b]. *)
Definition ceil_div (a b : Z) : Z := (a + b - 1) `div` b.

(** The packet that turn [j] of the framer's loop is expected to build: six
    header bytes, ten reserved zero bytes, the [j]-th slice of the payload
    and zero padding up to the packet length. *)
Definition framedPacket `{StreamDeckModel} (keyIndex : Z) (byteBuffer : Buffer.t) (j : Z)
    : Buffer.t :=
  let M := getFillImagePacketLength - getFillImageCommandHeaderLength in
  let chunk := take (Z.to_nat M) (drop (Z.to_nat (j * M)) byteBuffer) in
  [2; 1; Z.land j 255; Z.shiftr j 8;
   if bool_decide (Buffer.length byteBuffer - j * M ≤ M) then 1 else 0;
   keyIndex + 1]
  ++ replicate 10 0 ++ chunk ++ replicate (Z.to_nat M - List.length chunk) 0.

(** The payload area of a packet: what follows the header. *)
Definition packetPayload (packet : Buffer.t) : Buffer.t :=
  drop (Z.to_nat getFillImageCommandHeaderLength) packet.

(** The part index as read back from header bytes 2-3, little-endian. *)
Definition packetPartIndex (packet : Buffer.t) : option Z :=
  lo ← packet !! 2%nat; hi ← packet !! 3%nat; Some (lo + 256 * hi).

(** The key bytes of an input report: what the listener keeps of it. *)
Definition reportKeyData `{StreamDeckModel} (data : Buffer.t) : Buffer.t :=
  Buffer.slice data (KEY_DATA_OFFSET deviceProperties) (Buffer.length data - 1).

(** The event due for native key [i] when the state array is [st]: none when
    the cell at the transformed index already holds the reported value. *)
Definition keyTransition `{StreamDeckModel} (st : gmap Z bool) (keyData : Buffer.t) (i : Z)
    : option KeyEvent :=
  let keyPressed := keyPressedAt keyData i in
  let keyIndex := transformKeyIndex i in
  if bool_decide (st !! keyIndex ≠ Some keyPressed) then
    Some (if keyPressed then down keyIndex else up keyIndex)
  else None.

(** The listener's loop body for native key [i], as a state transformer. *)
Definition keyStep `{StreamDeckModel} (keyData : Buffer.t) (d : Driver) (i : Z) : Driver :=
  match keyTransition (keyState d) keyData i with
  | Some e =>
      {| keyState := <[transformKeyIndex i := keyPressedAt keyData i]> (keyState d);
         emitted := emitted d ++ [e];
         calls := calls d |}
  | None => d
  end.

(** The feature reports of [setBrightness] and [resetToLogo]. *)
Definition brightnessReport (percentage : Z) : Buffer.t :=
  [0x05; 0x55; 0xAA; 0xD1; 0x01; percentage; 0; 0; 0; 0; 0; 0; 0; 0; 0; 0; 0].

Definition resetReport : Buffer.t :=
  [0x0B; 0x63; 0; 0; 0; 0; 0; 0; 0; 0; 0; 0; 0; 0; 0; 0; 0].

(** The outcome of a call on the HID handle after the calls [before]. *)
Definition hid_outcome `{Transport} (before : list call) (c : call) : res unit :=
  match hid_fault before c with
  | Some code => Throw (HIDError code)
  | None => Ok ()
  end.

(** A converter call made for source format [f]; other calls are left
    unconstrained. *)
Definition convertsFrom (f : SourceFormat) (c : call) : Prop :=
  match c with
  | Call_convertFillImage _ sourceOptions => i_format sourceOptions = f
  | _ => True
  end.

(** The action only adds calls to the log, all of them satisfying [Q]. *)
Definition appends {A} (Q : call → Prop) (m : M A) : Prop :=
  ∀ d, ∃ new, calls (m d).2 = calls d ++ new ∧ Forall Q new.

(** The image [fillColor] builds: ICON_PIXELS pixels, each (r, g, b). *)
Definition solidPixels `{StreamDeckModel} (r g b : Z) : Buffer.t :=
  mjoin (replicate (Z.to_nat ICON_PIXELS) [r; g; b]).

(** The action leaves the key state and the emitted events alone. *)
Definition keeps_keys {A} (m : M A) : Prop :=
  ∀ d, keyState (m d).2 = keyState d ∧ emitted (m d).2 = emitted d.

(** What [fillPanel] hands to [fillImageRange] for the key at [row] and
    [column] of the panel image: the native key index and the source
    region. *)
Definition panelCell `{StreamDeckModel} (sourceFormat : SourceFormat) (row column : Z)
    : Z * InternalFillImageOptions :=
  let iconSize := ICON_SIZE deviceProperties * format_length sourceFormat in
  let stride := iconSize * KEY_COLUMNS in
  let rowOffset := stride * row * ICON_SIZE deviceProperties in
  let index := row * KEY_COLUMNS in
  let index :=
    match KEY_DIRECTION deviceProperties with
    | ltr => index + column
    | rtl => index + (KEY_COLUMNS - column - 1)
    end in
  let colOffset := column * iconSize in
  (index, {| i_format := sourceFormat; offset := rowOffset + colOffset; stride := stride |}).

(** The cells of the panel in the order of the two loops of [fillPanel]. *)
Definition panelCells `{StreamDeckModel} (sourceFormat : SourceFormat)
    : list (Z * InternalFillImageOptions) :=
  seqZ 0 KEY_ROWS ≫= λ row, panelCell sourceFormat row <$> seqZ 0 KEY_COLUMNS.

(** A converter call on the panel image whose region (ICON_SIZE rows of one
    icon row each, [stride] bytes apart, from [offset] on) lies inside the
    image; other calls are left unconstrained. *)
Definition panelRegionInside `{StreamDeckModel} (imageBuffer : Buffer.t) (c : call) : Prop :=
  match c with
  | Call_convertFillImage b sourceOptions =>
      b = imageBuffer ∧
      0 ≤ offset sourceOptions ∧
      offset sourceOptions
        + (ICON_SIZE deviceProperties - 1) * stride sourceOptions
        + ICON_SIZE deviceProperties * format_length (i_format sourceOptions)
      ≤ Buffer.length imageBuffer
  | _ => True
  end.

(** ** The rapid-fill demo ([RapidFillDemo]): its interval guard *)

Module RapidFillDemo.

(** The timers of [window]: the handles [setInterval] has returned so far and
    the intervals still running. *)
Record Window : Type := {
  issued : list Z;
  active : list Z
}.

(** The handle the browser returns, given the handles it has issued. *)
Class Browser : Type := {
  nextHandle : list Z → Z
}.

(** [window.setInterval(callback, 1000 / 5)] *)
Definition setInterval `{Browser} (w : Window) : Z * Window :=
  let handle := nextHandle (issued w) in
  (handle, {| issued := issued w ++ [handle]; active := active w ++ [handle] |}).

(** [window.clearInterval(handle)]: an unknown handle is ignored. *)
Definition clearInterval (handle : Z) (w : Window) : Window :=
  {| issued := issued w; active := filter (λ h, h ≠ handle) (active w) |}.

(** [private interval: number | undefined] *)
Record Demo : Type := { interval : option Z }.

(** [!this.interval]: undefined and 0 are falsy. *)
Definition notStarted (demo : Demo) : bool :=
  match interval demo with
  | None => true
  | Some handle => bool_decide (handle = 0)
  end.

Definition start `{Browser} (s : Demo * Window) : Demo * Window :=
  if notStarted s.1 then
    let '(handle, w) := setInterval s.2 in
    ({| interval := Some handle |}, w)
  else s.

Definition stop (s : Demo * Window) : Demo * Window :=
  match interval s.1 with
  | Some handle =>
      if bool_decide (handle = 0) then s
      else ({| interval := None |}, clearInterval handle s.2)
  | None => s
  end.

(** The calls a user of the demo can make. *)
Inductive op : Type := Start | Stop.

Definition run `{Browser} (s : Demo * Window) (o : op) : Demo * Window :=
  match o with
  | Start => start s
  | Stop => stop s
  end.

(** A new demo in a window where this page runs no interval yet. *)
Definition newDemo (handles : list Z) : Demo * Window :=
  ({| interval := None |}, {| issued := handles; active := [] |}).

(** A browser that numbers its handles 1, 2, 3, ... *)
Definition counting : Browser := {| nextHandle := λ l, Z.of_nat (List.length l) + 1 |}.

(** A browser whose handles start at 0. *)
Definition zeroBased : Browser := {| nextHandle := λ l, Z.of_nat (List.length l) |}.

End RapidFillDemo.

(** * Properties *)

(** ** Result monad *)

Lemma res_bind_Ok {A B} (f : A → res B) (a : A) : (Ok a ≫= f) = f a.
Proof. reflexivity. Qed.

Lemma res_bind_Throw {A B} (f : A → res B) (e : error) : (Throw e ≫= f) = Throw e.
Proof. reflexivity. Qed.

Lemma res_bind_inv {A B} (f : A → res B) (r : res A) (b : B) :
  (r ≫= f) = Ok b → ∃ a, r = Ok a ∧ f a = Ok b.
Proof. destruct r as [a|e]; [eauto | discriminate]. Qed.

(** ** Arithmetic *)

Lemma ceil_div_spec (a b : Z) :
  0 ≤ a → 0 < b →
  0 ≤ ceil_div a b ∧ (ceil_div a b - 1) * b < a ≤ ceil_div a b * b.
Proof.
  intros Ha Hb. unfold ceil_div.
  pose proof (Z.mul_div_le (a + b - 1) b Hb).
  pose proof (Z.mul_succ_div_gt (a + b - 1) b Hb).
  pose proof (Z.div_pos (a + b - 1) b).
  split; [lia | nia].
Qed.

Lemma ceil_div_0 (b : Z) : 0 < b → ceil_div 0 b = 0.
Proof. intros Hb. unfold ceil_div. apply Z.div_small. lia. Qed.

Lemma ceil_div_pos (a b : Z) : 0 < a → 0 < b → 1 ≤ ceil_div a b.
Proof. intros Ha Hb. pose proof (ceil_div_spec a b). nia. Qed.

(** ** Buffer *)

Lemma Buffer_length_nonneg (b : Buffer.t) : 0 ≤ Buffer.length b.
Proof. unfold Buffer.length. lia. Qed.

Lemma Buffer_get_Some (b : Buffer.t) (i : Z) :
  is_Some (Buffer.get b i) ↔ 0 ≤ i < Buffer.length b.
Proof.
  unfold Buffer.get, Buffer.length. case_decide.
  - rewrite lookup_lt_is_Some. lia.
  - split; [intros [? ?]; discriminate | lia].
Qed.

Lemma writeUInt16LE_Ok_range (b b' : Buffer.t) (value offset : Z) :
  Buffer.writeUInt16LE b value offset = Ok b' → 0 ≤ value ≤ 65535.
Proof. unfold Buffer.writeUInt16LE. case_decide; [discriminate | lia]. Qed.

(** A copy whose source range lies inside the source and fits the target. *)
Lemma Buffer_copy_Ok (source target : Buffer.t) (targetStart sourceStart sourceEnd : Z) :
  0 ≤ targetStart < Buffer.length target →
  0 ≤ sourceStart < sourceEnd → sourceEnd ≤ Buffer.length source →
  sourceEnd - sourceStart ≤ Buffer.length target - targetStart →
  Buffer.copy source target targetStart sourceStart sourceEnd =
  Ok (take (Z.to_nat targetStart) target
        ++ take (Z.to_nat (sourceEnd - sourceStart)) (drop (Z.to_nat sourceStart) source)
        ++ drop (Z.to_nat (targetStart + (sourceEnd - sourceStart))) target).
Proof.
  unfold Buffer.copy, Buffer.length. intros Ht Hs He Hfit.
  repeat (case_decide; [lia|]).
  rewrite length_take, length_drop. do 4 f_equal; lia.
Qed.

(** ** The packet framer *)

Section FramerFacts.
Context `{model : StreamDeckModel}.

#[local] Abbreviation P := getFillImagePacketLength.
#[local] Abbreviation HEADER := getFillImageCommandHeaderLength.
#[local] Abbreviation MAX_PAYLOAD := (getFillImagePacketLength - getFillImageCommandHeaderLength).

(** A packet is only produced for a part index that fits 16 bits. *)
Lemma fillImagePacket_part_range keyIndex byteBuffer part remainingBytes r :
  fillImagePacket keyIndex byteBuffer part remainingBytes = Ok r →
  0 ≤ part ≤ 65535.
Proof.
  unfold fillImagePacket, writeFillImageCommandHeader. intros Hr.
  apply res_bind_inv in Hr as (p0 & _ & Hr).
  apply res_bind_inv in Hr as (p1 & Hr & _).
  apply res_bind_inv in Hr as (p2 & _ & Hr).
  apply res_bind_inv in Hr as (p3 & _ & Hr).
  apply res_bind_inv in Hr as (p4 & Hr & _).
  by apply writeUInt16LE_Ok_range in Hr.
Qed.

(** The loop always reaches its exit or a throw within [PART_FUEL] turns:
    the default in [generateFillImageWrites] is never used. *)
Lemma fillImageLoop_is_Some fuel keyIndex byteBuffer part remainingBytes result :
  part ≤ 65536 → 65537 ≤ part + Z.of_nat fuel →
  is_Some (fillImageLoop fuel keyIndex byteBuffer part remainingBytes result).
Proof.
  revert part remainingBytes result.
  induction fuel as [|fuel IH]; intros part remainingBytes result Hp Hf; [lia|].
  simpl. case_decide; [|eauto].
  destruct (fillImagePacket keyIndex byteBuffer part remainingBytes)
    as [[packet rem']|e] eqn:Hpk; [|eauto].
  apply fillImagePacket_part_range in Hpk. apply IH; lia.
Qed.

Lemma fillImageLoop_total keyIndex byteBuffer :
  fillImageLoop PART_FUEL keyIndex byteBuffer 0 (Buffer.length byteBuffer) [] =
  Some (generateFillImageWrites keyIndex byteBuffer).
Proof.
  unfold generateFillImageWrites.
  destruct (fillImageLoop_is_Some PART_FUEL keyIndex byteBuffer 0
              (Buffer.length byteBuffer) []) as [r ->]; [lia | | done].
  unfold PART_FUEL. lia.
Qed.

Lemma writeFillImageCommandHeader_Ok (buffer : Buffer.t) keyIndex partIndex isLast bodyLength :
  (6 ≤ List.length buffer)%nat → 0 ≤ partIndex ≤ 65535 → 0 ≤ keyIndex + 1 ≤ 255 →
  writeFillImageCommandHeader buffer keyIndex partIndex isLast bodyLength =
  Ok ([2; 1; Z.land partIndex 255; Z.shiftr partIndex 8;
       if isLast then 1 else 0; keyIndex + 1] ++ drop 6 buffer).
Proof.
  intros Hlen Hp Hk.
  destruct buffer as [|b0 [|b1 [|b2 [|b3 [|b4 [|b5 rest]]]]]]; simpl in Hlen; try lia.
  unfold writeFillImageCommandHeader, Buffer.writeUInt8, Buffer.writeUInt16LE, Buffer.get.
  simpl.
  repeat (case_decide; [lia|]; simpl).
  destruct isLast; simpl; repeat (case_decide; [lia|]; simpl); done.
Qed.

(** One turn of the loop, when the model leaves room for a payload and the
    header fields are in range. *)
Lemma fillImagePacket_Ok keyIndex (byteBuffer : Buffer.t) part remainingBytes :
  HEADER < P → 0 ≤ keyIndex + 1 ≤ 255 → 0 ≤ part ≤ 65535 →
  0 < remainingBytes →
  remainingBytes = Buffer.length byteBuffer - part * MAX_PAYLOAD →
  fillImagePacket keyIndex byteBuffer part remainingBytes =
  Ok (framedPacket keyIndex byteBuffer part,
      remainingBytes - Z.min remainingBytes MAX_PAYLOAD).
Proof.
  intros HP Hk Hp Hrem Heq.
  pose proof (Buffer_length_nonneg byteBuffer) as Hlen.
  assert (Hoff : 0 ≤ part * MAX_PAYLOAD) by (unfold getFillImageCommandHeaderLength in *; nia).
  unfold fillImagePacket, framedPacket, Buffer.alloc.
  unfold getFillImageCommandHeaderLength in *.
  case_decide; [lia|]. rewrite res_bind_Ok.
  rewrite writeFillImageCommandHeader_Ok by (rewrite ?length_replicate; lia).
  rewrite res_bind_Ok, drop_replicate.
  replace (Z.to_nat P - 6)%nat with (10 + Z.to_nat (P - 16))%nat by lia.
  rewrite replicate_add.
  replace (bool_decide (Buffer.length byteBuffer - part * (P - 16) ≤ P - 16))
    with (bool_decide (remainingBytes ≤ P - 16))
    by (apply bool_decide_ext; lia).
  set (hdr := [2; 1; Z.land part 255; Z.shiftr part 8;
               if bool_decide (remainingBytes ≤ P - 16) then 1 else 0; keyIndex + 1]).
  rewrite Buffer_copy_Ok; cycle 1.
  { unfold Buffer.length. rewrite !length_app, !length_replicate. simpl. lia. }
  { lia. }
  { lia. }
  { unfold Buffer.length. rewrite !length_app, !length_replicate. simpl. lia. }
  rewrite res_bind_Ok. simpl mret. unfold res_ret. f_equal. f_equal.
  replace (Z.to_nat (Buffer.length byteBuffer - remainingBytes))
    with (Z.to_nat (part * (P - 16))) by lia.
  set (src := drop (Z.to_nat (part * (P - 16))) byteBuffer).
  assert (Hsrc : List.length src = Z.to_nat remainingBytes).
  { subst src. rewrite length_drop. unfold Buffer.length in *. lia. }
  assert (Hchunk : take (Z.to_nat (Buffer.length byteBuffer - remainingBytes
                           + Z.min remainingBytes (P - 16)
                           - (Buffer.length byteBuffer - remainingBytes))) src
          = take (Z.to_nat (P - 16)) src).
  { destruct (decide (remainingBytes ≤ P - 16)).
    - rewrite !take_ge by lia. done.
    - f_equal. lia. }
  rewrite Hchunk.
  set (chunk := take (Z.to_nat (P - 16)) src).
  assert (Hc : (List.length chunk ≤ Z.to_nat (P - 16))%nat).
  { subst chunk. rewrite length_take. lia. }
  assert (Hc' : Z.of_nat (List.length chunk) = Z.min remainingBytes (P - 16)).
  { subst chunk. rewrite length_take. lia. }
  replace (Z.to_nat (16 + (Buffer.length byteBuffer - remainingBytes
                           + Z.min remainingBytes (P - 16)
                           - (Buffer.length byteBuffer - remainingBytes))))
    with (16 + List.length chunk)%nat by lia.
  subst hdr. simpl. rewrite drop_replicate. done.
Qed.

(** The loop from turn [part] on, with [r] packets still to build. *)
Lemma fillImageLoop_closed (r : nat) :
  ∀ fuel keyIndex (byteBuffer : Buffer.t) part remainingBytes result,
    HEADER < P → 0 ≤ keyIndex + 1 ≤ 255 →
    0 ≤ part → part + Z.of_nat r ≤ 65536 →
    remainingBytes = Buffer.length byteBuffer - part * MAX_PAYLOAD →
    (Z.of_nat r - 1) * MAX_PAYLOAD < remainingBytes ≤ Z.of_nat r * MAX_PAYLOAD →
    (r ≤ fuel)%nat →
    fillImageLoop fuel keyIndex byteBuffer part remainingBytes result =
    Some (Ok (result ++ (framedPacket keyIndex byteBuffer <$> seqZ part (Z.of_nat r)))).
Proof.
  induction r as [|r IH]; intros fuel keyIndex byteBuffer part rem result HP Hk Hp Hr Heq Hrem Hfuel.
  - assert (Hexit : ¬ rem > 0) by lia.
    rewrite seqZ_nil, app_nil_r by lia.
    destruct fuel; simpl; case_decide; done.
  - assert (Hgo : rem > 0) by (unfold getFillImageCommandHeaderLength in *; nia).
    destruct fuel as [|fuel]; [lia|]. simpl. case_decide; [|done].
    rewrite fillImagePacket_Ok by (done || lia).
    rewrite seqZ_cons by lia. rewrite fmap_cons.
    replace (Z.pred (Z.of_nat (S r))) with (Z.of_nat r) by lia.
    replace (Z.succ part) with (part + 1) by lia.
    destruct (decide (rem ≤ MAX_PAYLOAD)) as [Hlast|Hmore].
    + assert (r = 0%nat) as -> by (unfold getFillImageCommandHeaderLength in *; nia).
      rewrite Z.min_l by done. rewrite Z.sub_diag.
      rewrite seqZ_nil, fmap_nil by lia.
      destruct fuel; simpl; try case_decide; done || lia.
    + rewrite Z.min_r by lia.
      rewrite IH by (done || lia).
      by rewrite <- app_assoc.
Qed.

(** The framer in closed form. *)
Lemma generateFillImageWrites_closed keyIndex (byteBuffer : Buffer.t) :
  HEADER < P → 0 ≤ keyIndex + 1 ≤ 255 →
  ceil_div (Buffer.length byteBuffer) MAX_PAYLOAD ≤ 65536 →
  generateFillImageWrites keyIndex byteBuffer =
  Ok (framedPacket keyIndex byteBuffer
        <$> seqZ 0 (ceil_div (Buffer.length byteBuffer) MAX_PAYLOAD)).
Proof.
  intros HP Hk Hn. unfold generateFillImageWrites.
  pose proof (Buffer_length_nonneg byteBuffer) as Hlen.
  destruct (ceil_div_spec (Buffer.length byteBuffer) MAX_PAYLOAD) as [Hn0 Hspec];
    [done | lia |].
  rewrite (fillImageLoop_closed
             (Z.to_nat (ceil_div (Buffer.length byteBuffer) MAX_PAYLOAD)));
    try done; rewrite ?Z2Nat.id by done; try lia.
  - done.
  - unfold PART_FUEL. lia.
Qed.

Lemma framedPacket_length keyIndex (byteBuffer : Buffer.t) j :
  HEADER < P → Buffer.length (framedPacket keyIndex byteBuffer j) = P.
Proof.
  intros HP. unfold framedPacket, Buffer.length, getFillImageCommandHeaderLength in *.
  rewrite !length_app, !length_replicate, length_take. simpl List.length. lia.
Qed.

Lemma framedPacket_payload keyIndex (byteBuffer : Buffer.t) j :
  packetPayload (framedPacket keyIndex byteBuffer j) =
  take (Z.to_nat MAX_PAYLOAD) (drop (Z.to_nat (j * MAX_PAYLOAD)) byteBuffer)
    ++ replicate (Z.to_nat MAX_PAYLOAD
                  - List.length (take (Z.to_nat MAX_PAYLOAD)
                                   (drop (Z.to_nat (j * MAX_PAYLOAD)) byteBuffer))) 0.
Proof. reflexivity. Qed.

(** A slice that lies inside the buffer fills the payload area. *)
Lemma framedPacket_payload_full keyIndex (byteBuffer : Buffer.t) j :
  HEADER < P → 0 ≤ j → (j + 1) * MAX_PAYLOAD ≤ Buffer.length byteBuffer →
  packetPayload (framedPacket keyIndex byteBuffer j) =
  take (Z.to_nat MAX_PAYLOAD) (drop (Z.to_nat (j * MAX_PAYLOAD)) byteBuffer) ∧
  List.length (packetPayload (framedPacket keyIndex byteBuffer j)) = Z.to_nat MAX_PAYLOAD.
Proof.
  intros HP Hj Hin. rewrite framedPacket_payload.
  assert (Hl : List.length (take (Z.to_nat MAX_PAYLOAD)
                 (drop (Z.to_nat (j * MAX_PAYLOAD)) byteBuffer)) = Z.to_nat MAX_PAYLOAD).
  { rewrite length_take, length_drop.
    unfold Buffer.length, getFillImageCommandHeaderLength in *. nia. }
  rewrite Hl, Nat.sub_diag. simpl. rewrite app_nil_r. done.
Qed.

(** The payload areas of the first [m] packets, while they are all full. *)
Lemma framedPacket_payloads_full keyIndex (byteBuffer : Buffer.t) (m : nat) :
  HEADER < P → Z.of_nat m * MAX_PAYLOAD ≤ Buffer.length byteBuffer →
  mjoin (packetPayload <$> (framedPacket keyIndex byteBuffer <$> seqZ 0 (Z.of_nat m))) =
  take (Z.to_nat (Z.of_nat m * MAX_PAYLOAD)) byteBuffer.
Proof.
  intros HP. induction m as [|m IH]; intros Hin.
  - done.
  - rewrite seqZ_S, Z.add_0_l, !fmap_app, join_app. simpl.
    rewrite app_nil_r.
    rewrite IH by (unfold getFillImageCommandHeaderLength in *; nia).
    destruct (framedPacket_payload_full keyIndex byteBuffer (Z.of_nat m)) as [-> _];
      [done | lia | lia |].
    rewrite take_take_drop. f_equal.
    unfold getFillImageCommandHeaderLength in *. nia.
Qed.

(** [r] turns that all leave bytes to send. *)
Lemma fillImageLoop_full_turns (r : nat) :
  ∀ fuel keyIndex (byteBuffer : Buffer.t) part remainingBytes result,
    HEADER < P → 0 ≤ keyIndex + 1 ≤ 255 →
    0 ≤ part → part + Z.of_nat r ≤ 65536 →
    remainingBytes = Buffer.length byteBuffer - part * MAX_PAYLOAD →
    Z.of_nat r * MAX_PAYLOAD < remainingBytes →
    fillImageLoop (r + fuel) keyIndex byteBuffer part remainingBytes result =
    fillImageLoop fuel keyIndex byteBuffer (part + Z.of_nat r)
      (remainingBytes - Z.of_nat r * MAX_PAYLOAD)
      (result ++ (framedPacket keyIndex byteBuffer <$> seqZ part (Z.of_nat r))).
Proof.
  induction r as [|r IH]; intros fuel keyIndex byteBuffer part rem result HP Hk Hp Hr Heq Hrem.
  - rewrite seqZ_nil, app_nil_r by lia. simpl. f_equal; lia.
  - assert (Hgo : rem > 0) by (unfold getFillImageCommandHeaderLength in *; nia).
    change (S r + fuel)%nat with (S (r + fuel)). simpl fillImageLoop.
    case_decide; [|done].
    rewrite fillImagePacket_Ok by (done || lia).
    rewrite Z.min_r by (unfold getFillImageCommandHeaderLength in *; nia).
    rewrite IH by (done || lia).
    rewrite (seqZ_cons part) by lia. rewrite fmap_cons, <- app_assoc.
    replace (Z.pred (Z.of_nat (S r))) with (Z.of_nat r) by lia.
    replace (Z.succ part) with (part + 1) by lia.
    f_equal; lia.
Qed.

Lemma writeFillImageCommandHeader_part_overflow (buffer : Buffer.t)
    keyIndex partIndex isLast bodyLength :
  (2 ≤ List.length buffer)%nat → ¬ 0 ≤ partIndex ≤ 65535 →
  writeFillImageCommandHeader buffer keyIndex partIndex isLast bodyLength =
  Throw ERR_OUT_OF_RANGE.
Proof.
  intros Hlen Hp. destruct buffer as [|b0 [|b1 rest]]; simpl in Hlen; try lia.
  unfold writeFillImageCommandHeader, Buffer.writeUInt8, Buffer.writeUInt16LE, Buffer.get.
  simpl. destruct (decide (partIndex < 0 ∨ 65535 < partIndex)); [done | lia].
Qed.

(** A payload that needs more than 65536 packets is refused: part index
    65536 does not fit its field and the header write throws. *)
Lemma generateFillImageWrites_part_overflow keyIndex (byteBuffer : Buffer.t) :
  HEADER < P → -1 ≤ keyIndex ≤ 254 →
  65536 < ceil_div (Buffer.length byteBuffer) MAX_PAYLOAD →
  generateFillImageWrites keyIndex byteBuffer = Throw ERR_OUT_OF_RANGE.
Proof.
  intros HP Hk Hn. unfold generateFillImageWrites.
  pose proof (Buffer_length_nonneg byteBuffer) as Hlen.
  destruct (ceil_div_spec (Buffer.length byteBuffer) MAX_PAYLOAD) as [_ Hspec];
    [done | lia |].
  assert (Hmany : 65536 * MAX_PAYLOAD < Buffer.length byteBuffer) by nia.
  replace PART_FUEL with (Z.to_nat 65536 + 1)%nat by (unfold PART_FUEL; lia).
  rewrite fillImageLoop_full_turns; rewrite ?Z2Nat.id by lia; [|done || lia..].
  cbn [fillImageLoop]. case_decide; [|lia].
  unfold fillImagePacket, Buffer.alloc, getFillImageCommandHeaderLength in *.
  destruct (decide (P < 0)); [lia|].
  rewrite res_bind_Ok.
  rewrite writeFillImageCommandHeader_part_overflow;
    [done | rewrite length_replicate; lia | lia].
Qed.

Lemma fillImageLoop_exit fuel keyIndex (byteBuffer : Buffer.t) part remainingBytes result :
  ¬ remainingBytes > 0 →
  fillImageLoop fuel keyIndex byteBuffer part remainingBytes result = Some (Ok result).
Proof. intros Hexit. destruct fuel; simpl; by case_decide. Qed.

Lemma fillImageLoop_turn fuel keyIndex (byteBuffer : Buffer.t) part remainingBytes result :
  remainingBytes > 0 →
  fillImageLoop (S fuel) keyIndex byteBuffer part remainingBytes result =
  match fillImagePacket keyIndex byteBuffer part remainingBytes with
  | Throw e => Some (Throw e)
  | Ok (packet, remainingBytes) =>
      fillImageLoop fuel keyIndex byteBuffer (part + 1) remainingBytes (result ++ [packet])
  end.
Proof. intros Hgo. simpl. by case_decide. Qed.

Lemma writeFillImageCommandHeader_key_overflow (buffer : Buffer.t)
    keyIndex partIndex isLast bodyLength :
  (6 ≤ List.length buffer)%nat → 0 ≤ partIndex ≤ 65535 → ¬ 0 ≤ keyIndex + 1 ≤ 255 →
  writeFillImageCommandHeader buffer keyIndex partIndex isLast bodyLength =
  Throw ERR_OUT_OF_RANGE.
Proof.
  intros Hlen Hp Hk.
  destruct buffer as [|b0 [|b1 [|b2 [|b3 [|b4 [|b5 rest]]]]]]; simpl in Hlen; try lia.
  unfold writeFillImageCommandHeader, Buffer.writeUInt8, Buffer.writeUInt16LE, Buffer.get.
  simpl.
  destruct (decide (partIndex < 0 ∨ 65535 < partIndex)); [lia|]. simpl.
  destruct isLast; simpl;
    (destruct (decide (keyIndex + 1 < 0 ∨ 255 < keyIndex + 1)); [done | lia]).
Qed.

(** A key index that does not fit header byte 5 is refused as soon as there
    is a packet to build. *)
Lemma generateFillImageWrites_key_overflow keyIndex (byteBuffer : Buffer.t) :
  HEADER < P → ¬ -1 ≤ keyIndex ≤ 254 → byteBuffer ≠ [] →
  generateFillImageWrites keyIndex byteBuffer = Throw ERR_OUT_OF_RANGE.
Proof.
  intros HP Hk Hne. unfold generateFillImageWrites.
  assert (Hlen : Buffer.length byteBuffer > 0).
  { destruct byteBuffer; [done | unfold Buffer.length; simpl; lia]. }
  replace PART_FUEL with (S (Z.to_nat 65536)) by (unfold PART_FUEL; lia).
  rewrite fillImageLoop_turn by done.
  unfold fillImagePacket, Buffer.alloc, getFillImageCommandHeaderLength in *.
  destruct (decide (P < 0)); [lia|].
  rewrite res_bind_Ok.
  rewrite writeFillImageCommandHeader_key_overflow;
    [done | rewrite length_replicate; lia | lia | lia].
Qed.

(** X1: the inputs on which the framer returns, for a model that leaves room
    for a payload: the empty buffer, and the buffers of at most 65536 packets
    for a key index whose successor fits a byte. *)
Lemma generateFillImageWrites_Ok_iff keyIndex (byteBuffer : Buffer.t) :
  HEADER < P →
  (∃ packets, generateFillImageWrites keyIndex byteBuffer = Ok packets) ↔
  byteBuffer = [] ∨
  (-1 ≤ keyIndex ≤ 254 ∧ ceil_div (Buffer.length byteBuffer) MAX_PAYLOAD ≤ 65536).
Proof.
  intros HP. split.
  - intros [packets Hok].
    destruct (decide (byteBuffer = [])) as [|Hne]; [by left | right].
    destruct (decide (-1 ≤ keyIndex ≤ 254)) as [Hk|Hk].
    + split; [done|].
      destruct (decide (ceil_div (Buffer.length byteBuffer) MAX_PAYLOAD ≤ 65536)); [done|].
      rewrite generateFillImageWrites_part_overflow in Hok by (done || lia). done.
    + rewrite generateFillImageWrites_key_overflow in Hok by done. done.
  - intros [->|[Hk Hn]].
    + exists []. unfold generateFillImageWrites.
      by rewrite fillImageLoop_exit.
    + eexists. apply generateFillImageWrites_closed; done || lia.
Qed.

Lemma framedPacket_lookup keyIndex (byteBuffer : Buffer.t) (n : Z) (j : nat) packet :
  (framedPacket keyIndex byteBuffer <$> seqZ 0 n) !! j = Some packet →
  packet = framedPacket keyIndex byteBuffer (Z.of_nat j) ∧ Z.of_nat j < n.
Proof.
  rewrite list_lookup_fmap. intros Hj.
  apply fmap_Some in Hj as (i & Hi & ->).
  apply lookup_seqZ in Hi as [-> ?]. by rewrite Z.add_0_l.
Qed.

(** C1 (amended): when the model's packet length exceeds the 16-byte header,
    the key index fits the header byte and the part indices fit their 16-bit
    field, the framer returns exactly ceil(len / M) packets, M being the
    packet length minus the header length: none for an empty buffer, at
    least one for any other. *)
Theorem generateFillImageWrites_packet_count keyIndex (byteBuffer : Buffer.t) :
  HEADER < P → 0 ≤ keyIndex ≤ 254 →
  ceil_div (Buffer.length byteBuffer) MAX_PAYLOAD ≤ 65536 →
  ∃ packets,
    generateFillImageWrites keyIndex byteBuffer = Ok packets ∧
    Z.of_nat (List.length packets) = ceil_div (Buffer.length byteBuffer) MAX_PAYLOAD ∧
    (byteBuffer = [] → packets = []) ∧
    (byteBuffer ≠ [] → (1 ≤ List.length packets)%nat).
Proof.
  intros HP Hk Hn.
  pose proof (Buffer_length_nonneg byteBuffer) as Hlen.
  destruct (ceil_div_spec (Buffer.length byteBuffer) MAX_PAYLOAD) as [Hn0 _]; [done | lia |].
  eexists. split; [apply generateFillImageWrites_closed; done || lia|].
  rewrite !length_fmap, length_seqZ.
  split; [lia|]. split.
  - intros ->. rewrite ceil_div_0 by lia. done.
  - intros Hne.
    assert (0 < Buffer.length byteBuffer).
    { destruct byteBuffer; [done | unfold Buffer.length; simpl; lia]. }
    pose proof (ceil_div_pos (Buffer.length byteBuffer) MAX_PAYLOAD). lia.
Qed.

(** C5: the [j]-th packet built for native key [k] carries part index [j]
    (so the part indices start at 0 and increase by one), its header is
    0x02, 0x01, the part index little-endian, the last-part flag and [k + 1],
    and the flag is 1 exactly when the bytes not yet sent when the packet is
    built, [len - j * M], are at most [M]. *)
Theorem generateFillImageWrites_headers keyIndex (byteBuffer : Buffer.t) :
  HEADER < P → 0 ≤ keyIndex ≤ 254 →
  ceil_div (Buffer.length byteBuffer) MAX_PAYLOAD ≤ 65536 →
  ∃ packets,
    generateFillImageWrites keyIndex byteBuffer = Ok packets ∧
    ∀ (j : nat) (packet : Buffer.t), packets !! j = Some packet →
      packet !! 0%nat = Some 0x02 ∧
      packet !! 1%nat = Some 0x01 ∧
      packet !! 2%nat = Some (Z.of_nat j `mod` 256) ∧
      packet !! 3%nat = Some (Z.of_nat j `div` 256) ∧
      packetPartIndex packet = Some (Z.of_nat j) ∧
      packet !! 4%nat =
        Some (if bool_decide (Buffer.length byteBuffer - Z.of_nat j * MAX_PAYLOAD
                              ≤ MAX_PAYLOAD) then 1 else 0) ∧
      packet !! 5%nat = Some (keyIndex + 1).
Proof.
  intros HP Hk Hn.
  eexists. split; [apply generateFillImageWrites_closed; done || lia|].
  intros j packet Hj. apply framedPacket_lookup in Hj as [-> Hjn].
  assert (Hlo : Z.land (Z.of_nat j) 255 = Z.of_nat j `mod` 256).
  { change 255 with (Z.ones 8). by rewrite Z.land_ones. }
  assert (Hhi : Z.shiftr (Z.of_nat j) 8 = Z.of_nat j `div` 256).
  { by rewrite Z.shiftr_div_pow2. }
  unfold packetPartIndex, framedPacket. simpl. rewrite Hlo, Hhi.
  repeat split; try done.
  f_equal. pose proof (Z.div_mod (Z.of_nat j) 256). lia.
Qed.

(** C4: every packet has the model's packet length; every packet but the
    last carries exactly [M] payload bytes, the next [M] bytes of the input;
    the last one carries the rest of the input followed by zeroes; and the
    payload areas, concatenated and cut to the input's length, give the
    input back. *)
Theorem generateFillImageWrites_payload_roundtrip keyIndex (byteBuffer : Buffer.t) :
  HEADER < P → 0 ≤ keyIndex ≤ 254 →
  ceil_div (Buffer.length byteBuffer) MAX_PAYLOAD ≤ 65536 →
  ∃ packets,
    generateFillImageWrites keyIndex byteBuffer = Ok packets ∧
    Forall (λ packet, Buffer.length packet = P) packets ∧
    (∀ (j : nat) (packet : Buffer.t),
        packets !! j = Some packet → (S j < List.length packets)%nat →
        packetPayload packet =
          take (Z.to_nat MAX_PAYLOAD) (drop (j * Z.to_nat MAX_PAYLOAD) byteBuffer) ∧
        List.length (packetPayload packet) = Z.to_nat MAX_PAYLOAD) ∧
    (∀ packet : Buffer.t, last packets = Some packet →
        let rest := drop ((List.length packets - 1) * Z.to_nat MAX_PAYLOAD) byteBuffer in
        (List.length rest ≤ Z.to_nat MAX_PAYLOAD)%nat ∧
        packetPayload packet =
          rest ++ replicate (Z.to_nat MAX_PAYLOAD - List.length rest) 0) ∧
    take (List.length byteBuffer) (mjoin (packetPayload <$> packets)) = byteBuffer.
Proof.
  intros HP Hk Hn.
  pose proof (Buffer_length_nonneg byteBuffer) as Hlen.
  destruct (ceil_div_spec (Buffer.length byteBuffer) MAX_PAYLOAD) as [Hn0 Hspec];
    [done | lia |].
  set (n := ceil_div (Buffer.length byteBuffer) MAX_PAYLOAD) in *.
  eexists. split; [apply generateFillImageWrites_closed; done || lia|]. fold n.
  assert (HM : 0 < MAX_PAYLOAD) by lia.
  split; [|split; [|split]].
  - apply Forall_fmap, Forall_forall. intros j _. by apply framedPacket_length.
  - intros j packet Hj Hnot. rewrite !length_fmap, length_seqZ in Hnot.
    apply framedPacket_lookup in Hj as [-> Hjn].
    replace (j * Z.to_nat MAX_PAYLOAD)%nat with (Z.to_nat (Z.of_nat j * MAX_PAYLOAD)) by nia.
    apply framedPacket_payload_full; [done | lia | nia].
  - intros packet Hlast. rewrite fmap_last in Hlast.
    apply fmap_Some in Hlast as (i & Hi & ->).
    rewrite last_lookup, length_seqZ in Hi. apply lookup_seqZ in Hi as [-> Hi].
    rewrite !length_fmap, length_seqZ. rewrite Z.add_0_l.
    replace ((Z.to_nat n - 1) * Z.to_nat MAX_PAYLOAD)%nat
      with (Z.to_nat (Z.of_nat (Nat.pred (Z.to_nat n)) * MAX_PAYLOAD)) by nia.
    set (rest := drop (Z.to_nat (Z.of_nat (Nat.pred (Z.to_nat n)) * MAX_PAYLOAD)) byteBuffer).
    assert (Hrest : (List.length rest ≤ Z.to_nat MAX_PAYLOAD)%nat).
    { subst rest. rewrite length_drop. unfold Buffer.length in *. nia. }
    simpl. split; [done|].
    rewrite framedPacket_payload. fold rest. by rewrite take_ge.
  - destruct (decide (n = 0)) as [Hz|Hnz].
    + rewrite Hz. assert (byteBuffer = []) as ->; [|done].
      destruct byteBuffer; [done|]. unfold Buffer.length in *. simpl in *. nia.
    + replace n with (Z.of_nat (S (Nat.pred (Z.to_nat n)))) by lia.
      set (m := Nat.pred (Z.to_nat n)).
      assert (Hm : Z.of_nat m = n - 1) by lia.
      rewrite seqZ_S, Z.add_0_l, !fmap_app, join_app.
      rewrite framedPacket_payloads_full by (done || nia).
      simpl. rewrite app_nil_r, framedPacket_payload.
      set (rest := drop (Z.to_nat (Z.of_nat m * MAX_PAYLOAD)) byteBuffer).
      assert (Hrest : (List.length rest ≤ Z.to_nat MAX_PAYLOAD)%nat).
      { subst rest. rewrite length_drop. unfold Buffer.length in *. nia. }
      rewrite (take_ge rest) by done.
      rewrite app_assoc. subst rest. rewrite take_drop.
      by rewrite take_app_length.
Qed.

End FramerFacts.

(** *** The framer on concrete inputs *)

Lemma generateFillImageWrites_packet_count_witness :
  ∃ packets,
    @generateFillImageWrites duo 1 [1; 2; 3; 4; 5; 6; 7; 8; 9] = Ok packets ∧
    Z.of_nat (List.length packets) = ceil_div 9 (20 - 16) ∧
    ([1; 2; 3; 4; 5; 6; 7; 8; 9] = [] → packets = []) ∧
    ([1; 2; 3; 4; 5; 6; 7; 8; 9] ≠ [] → (1 ≤ List.length packets)%nat).
Proof.
  apply (@generateFillImageWrites_packet_count duo 1 [1; 2; 3; 4; 5; 6; 7; 8; 9]).
  - reflexivity.
  - lia.
  - vm_compute. discriminate.
Defined.

(** C1 (as stated) fails on the empty buffer: the loop body never runs, no
    packet is returned, while the claim asks for one header-only packet. *)
Lemma generateFillImageWrites_empty_buffer :
  @generateFillImageWrites duo 0 [] = Ok [] ∧
  ¬ (∃ packets,
        @generateFillImageWrites duo 0 [] = Ok packets ∧
        (1 ≤ List.length packets)%nat ∧
        Z.of_nat (List.length packets) =
          ceil_div (Z.max 1 (Buffer.length []))
            (@getFillImagePacketLength duo - getFillImageCommandHeaderLength)).
Proof.
  assert (He : @generateFillImageWrites duo 0 [] = Ok []) by (vm_compute; reflexivity).
  split; [done|]. intros (packets & Hp & Hl & _).
  rewrite He in Hp. injection Hp as <-. simpl in Hl. lia.
Qed.

Lemma generateFillImageWrites_headers_witness :
  ∃ packets,
    @generateFillImageWrites duo 1 [1; 2; 3; 4; 5; 6; 7; 8; 9] = Ok packets ∧
    ∀ (j : nat) (packet : Buffer.t), packets !! j = Some packet →
      packet !! 0%nat = Some 0x02 ∧
      packet !! 1%nat = Some 0x01 ∧
      packet !! 2%nat = Some (Z.of_nat j `mod` 256) ∧
      packet !! 3%nat = Some (Z.of_nat j `div` 256) ∧
      packetPartIndex packet = Some (Z.of_nat j) ∧
      packet !! 4%nat =
        Some (if bool_decide (9 - Z.of_nat j * (20 - 16) ≤ 20 - 16) then 1 else 0) ∧
      packet !! 5%nat = Some (1 + 1).
Proof.
  apply (@generateFillImageWrites_headers duo 1 [1; 2; 3; 4; 5; 6; 7; 8; 9]).
  - reflexivity.
  - lia.
  - vm_compute. discriminate.
Defined.

Lemma generateFillImageWrites_payload_roundtrip_witness :
  ∃ packets,
    @generateFillImageWrites duo 1 [1; 2; 3; 4; 5; 6; 7; 8; 9] = Ok packets ∧
    Forall (λ packet, Buffer.length packet = 20) packets ∧
    (∀ (j : nat) (packet : Buffer.t),
        packets !! j = Some packet → (S j < List.length packets)%nat →
        packetPayload packet = take 4 (drop (j * 4) [1; 2; 3; 4; 5; 6; 7; 8; 9]) ∧
        List.length (packetPayload packet) = 4%nat) ∧
    (∀ packet : Buffer.t, last packets = Some packet →
        let rest := drop ((List.length packets - 1) * 4) [1; 2; 3; 4; 5; 6; 7; 8; 9] in
        (List.length rest ≤ 4)%nat ∧
        packetPayload packet = rest ++ replicate (4 - List.length rest) 0) ∧
    take 9 (mjoin (packetPayload <$> packets)) = [1; 2; 3; 4; 5; 6; 7; 8; 9].
Proof.
  apply (@generateFillImageWrites_payload_roundtrip duo 1 [1; 2; 3; 4; 5; 6; 7; 8; 9]).
  - reflexivity.
  - lia.
  - vm_compute. discriminate.
Defined.

(** Outside the header's ranges the framer throws: key index 255 does not
    fit header byte 5. *)
Example generateFillImageWrites_key_255 :
  @generateFillImageWrites duo 255 [1] = Throw ERR_OUT_OF_RANGE.
Proof. vm_compute. reflexivity. Qed.

(** What the framer returns for nine bytes on a 20-byte packet model. *)
Example generateFillImageWrites_nine_bytes :
  @generateFillImageWrites duo 1 [1; 2; 3; 4; 5; 6; 7; 8; 9] =
  Ok [[2; 1; 0; 0; 0; 2; 0; 0; 0; 0; 0; 0; 0; 0; 0; 0; 1; 2; 3; 4];
      [2; 1; 1; 0; 0; 2; 0; 0; 0; 0; 0; 0; 0; 0; 0; 0; 5; 6; 7; 8];
      [2; 1; 2; 0; 1; 2; 0; 0; 0; 0; 0; 0; 0; 0; 0; 0; 9; 0; 0; 0]].
Proof. vm_compute. reflexivity. Qed.

(** ** The driver monad *)

Lemma M_bind_unfold {A B} (m : M A) (f : A → M B) (d : Driver) :
  (m ≫= f) d =
  match m d with
  | (Ok a, d') => f a d'
  | (Throw e, d') => (Throw e, d')
  end.
Proof. reflexivity. Qed.

Lemma for_loop_for_of (n : nat) (i : Z) (body : Z → M unit) (d : Driver) :
  for_loop n i body d = for_of (seqZ i (Z.of_nat n)) body d.
Proof.
  revert i d. induction n as [|n IH]; intros i d; [done|].
  rewrite seqZ_cons by lia. simpl. rewrite !M_bind_unfold.
  destruct (body i d) as [[[]|e] d']; [|done].
  rewrite IH. do 2 f_equal. lia.
Qed.

Lemma for_range_for_of (bound : Z) (body : Z → M unit) (d : Driver) :
  for_range bound body d = for_of (seqZ 0 bound) body d.
Proof.
  unfold for_range. rewrite for_loop_for_of.
  destruct (decide (0 ≤ bound)).
  - by rewrite Z2Nat.id.
  - by rewrite !seqZ_nil by lia.
Qed.

Lemma for_of_ext {A} (xs : list A) (f g : A → M unit) (d : Driver) :
  (∀ x d', x ∈ xs → f x d' = g x d') → for_of xs f d = for_of xs g d.
Proof.
  revert d. induction xs as [|x xs IH]; intros d Hfg; [done|].
  simpl. rewrite !M_bind_unfold, Hfg by left.
  destruct (g x d) as [[[]|e] d']; [|done].
  apply IH. intros y d'' Hy. apply Hfg. by right.
Qed.

Lemma appends_ret {A} (Q : call → Prop) (a : A) : appends Q (mret a).
Proof. intros d. exists []. by rewrite app_nil_r. Qed.

Lemma appends_throw {A} (Q : call → Prop) (e : error) : appends Q (throw (A:=A) e).
Proof. intros d. exists []. by rewrite app_nil_r. Qed.

Lemma appends_lift {A} (Q : call → Prop) (r : res A) : appends Q (lift r).
Proof. intros d. exists []. by rewrite app_nil_r. Qed.

Lemma appends_log_call (Q : call → Prop) (c : call) : Q c → appends Q (log_call c).
Proof. intros Hc d. exists [c]. split; [done | by constructor]. Qed.

Lemma appends_bind {A B} (Q : call → Prop) (m : M A) (f : A → M B) :
  appends Q m → (∀ a, appends Q (f a)) → appends Q (m ≫= f).
Proof.
  intros Hm Hf d. rewrite M_bind_unfold.
  destruct (Hm d) as (new1 & Hc1 & HQ1).
  destruct (m d) as [[a|e] d1]; simpl in Hc1.
  - destruct (Hf a d1) as (new2 & Hc2 & HQ2).
    exists (new1 ++ new2). rewrite Hc2, Hc1, app_assoc.
    split; [done | by apply Forall_app].
  - by exists new1.
Qed.

Lemma appends_for_of {A} (Q : call → Prop) (xs : list A) (body : A → M unit) :
  (∀ x, appends Q (body x)) → appends Q (for_of xs body).
Proof.
  intros Hbody. induction xs as [|x xs IH]; simpl.
  - apply appends_ret.
  - apply appends_bind; [apply Hbody | intros _; apply IH].
Qed.

Lemma appends_for_range (Q : call → Prop) (bound : Z) (body : Z → M unit) :
  (∀ i, appends Q (body i)) → appends Q (for_range bound body).
Proof.
  intros Hbody d. rewrite for_range_for_of. by apply appends_for_of.
Qed.

(** Runs the binds of the goal whose first action is a log entry. *)
Ltac run_binds :=
  repeat (rewrite M_bind_unfold; unfold log_call; cbn beta iota).

Section DriverFacts.
Context `{model : StreamDeckModel} `{hid : Transport}.

Lemma hid_call_unfold (c : call) (d : Driver) :
  hid_call c d = (hid_outcome (calls d) c, logged c d).
Proof. unfold hid_call, hid_outcome. by destruct (hid_fault (calls d) c). Qed.

Lemma checkValidKeyIndex_valid keyIndex (d : Driver) :
  0 ≤ keyIndex < NUM_KEYS → checkValidKeyIndex keyIndex d = (Ok (), d).
Proof. intros Hk. unfold checkValidKeyIndex. case_decide; [lia | done]. Qed.

Lemma checkValidKeyIndex_invalid keyIndex (d : Driver) :
  ¬ 0 ≤ keyIndex < NUM_KEYS → checkValidKeyIndex keyIndex d = (Throw TypeError_keyIndex, d).
Proof. intros Hk. unfold checkValidKeyIndex. case_decide; [done | lia]. Qed.

Lemma checkRGBValue_valid value (d : Driver) :
  0 ≤ value ≤ 255 → checkRGBValue value d = (Ok (), d).
Proof. intros Hv. unfold checkRGBValue. case_decide; [lia | done]. Qed.

Lemma checkRGBValue_invalid value (d : Driver) :
  ¬ 0 ≤ value ≤ 255 → checkRGBValue value d = (Throw TypeError_rgbValue, d).
Proof. intros Hv. unfold checkRGBValue. case_decide; [done | lia]. Qed.

Lemma Buffer_from_bytes (l : list Z) :
  Forall (λ v, 0 ≤ v ≤ 255) l → Buffer.from l = l.
Proof.
  unfold Buffer.from. induction 1 as [|v l Hv _ IH]; [done|].
  rewrite fmap_cons, IH. f_equal. by apply Z.mod_small; lia.
Qed.

(** C8: a percentage outside [0, 100] throws the range error and nothing is
    sent; a percentage inside it makes exactly one call on the handle,
    [sendFeatureReport] with the 17 bytes 05 55 AA D1 01 p 00 ... 00, whose
    outcome is the outcome of [setBrightness]. *)
Theorem setBrightness_spec (percentage : Z) (d : Driver) :
  (¬ 0 ≤ percentage ≤ 100 →
     setBrightness percentage d = (Throw RangeError_brightness, d)) ∧
  (0 ≤ percentage ≤ 100 →
     let report := Call_sendFeatureReport (brightnessReport percentage) in
     setBrightness percentage d = (hid_outcome (calls d) report, logged report d) ∧
     calls (setBrightness percentage d).2 = calls d ++ [report] ∧
     List.length (brightnessReport percentage) = 17%nat ∧
     brightnessReport percentage !! 5%nat = Some percentage).
Proof.
  unfold setBrightness. split; intros Hp.
  - case_decide; [done | lia].
  - case_decide; [lia|]. cbv zeta.
    rewrite hid_call_unfold.
    rewrite Buffer_from_bytes.
    + done.
    + repeat (constructor; [lia|]). constructor.
Qed.

Lemma resetToLogo_unfold (d : Driver) :
  let report := Call_sendFeatureReport resetReport in
  resetToLogo d = (hid_outcome (calls d) report, logged report d).
Proof. unfold resetToLogo. cbv zeta. by rewrite hid_call_unfold. Qed.

(** C2 (amended): [close] does not catch an error of its reset-to-logo step.
    When the step is configured and the feature report fails, [close] throws
    that error and [device.close()] is not called; the exit-hook handler
    swallows the error and ends in the same state, the handle still open.
    When the step succeeds, or is not configured, [close] goes on to close
    the handle. *)
Theorem close_spec (d : Driver) :
  let reset := Call_sendFeatureReport resetReport in
  let released := logged Call_releaseExitHook d in
  (resetToLogoOnExit options = true →
   ∀ code, hid_fault (calls released) reset = Some code →
     close d = (Throw (HIDError code), logged reset released) ∧
     exitHookHandler d = (Ok (), logged reset released) ∧
     Call_close ∉ drop (List.length (calls d)) (calls (close d).2)) ∧
  (resetToLogoOnExit options = true →
   hid_fault (calls released) reset = None →
     calls (close d).2 = calls d ++ [Call_releaseExitHook; reset; Call_close]) ∧
  (resetToLogoOnExit options = false →
     calls (close d).2 = calls d ++ [Call_releaseExitHook; Call_close]).
Proof.
  cbv zeta. unfold exitHookHandler, try_catch, close.
  split; [|split].
  - intros -> code Hcode. run_binds.
    rewrite resetToLogo_unfold. unfold hid_outcome. rewrite Hcode.
    split; [done|]. split; [done|]. simpl.
    rewrite <- app_assoc, drop_app_length. simpl.
    rewrite !not_elem_of_cons. split_and!; [done | done | apply not_elem_of_nil].
  - intros -> Hok. run_binds.
    rewrite resetToLogo_unfold. unfold hid_outcome. rewrite Hok.
    rewrite hid_call_unfold. simpl. by rewrite <- !app_assoc.
  - intros ->. run_binds. simpl.
    rewrite hid_call_unfold. simpl. by rewrite <- !app_assoc.
Qed.

(** C6: an invalid call is rejected before anything is built, converted or
    written: the driver state, with its log of converter and transport calls,
    is the one before the call.  For a valid key, a colour component outside
    [0, 255] gives the colour error and a buffer of the wrong length gives
    the length error (an invalid key is reported first, by the key check). *)
Theorem validation_fail_fast keyIndex r g b (imageBuffer : Buffer.t)
    (fillOptions : option FillImageOptions) (d : Driver) :
  (¬ (0 ≤ r ≤ 255 ∧ 0 ≤ g ≤ 255 ∧ 0 ≤ b ≤ 255) →
     fillColor keyIndex r g b d =
     (Throw (if decide (0 ≤ keyIndex < NUM_KEYS) then TypeError_rgbValue
             else TypeError_keyIndex), d)) ∧
  (Buffer.length imageBuffer ≠ ICON_PIXELS * format_length (sourceFormatOf fillOptions) →
     fillImage keyIndex imageBuffer fillOptions d =
     (Throw (if decide (0 ≤ keyIndex < NUM_KEYS)
             then RangeError_imageLength
                    (ICON_PIXELS * format_length (sourceFormatOf fillOptions))
                    (Buffer.length imageBuffer)
             else TypeError_keyIndex), d)).
Proof.
  split.
  - intros Hrgb. unfold fillColor. rewrite M_bind_unfold.
    destruct (decide (0 ≤ keyIndex < NUM_KEYS)) as [Hk|Hk].
    + rewrite checkValidKeyIndex_valid by done. rewrite M_bind_unfold.
      destruct (decide (0 ≤ r ≤ 255)) as [Hr|Hr];
        [rewrite checkRGBValue_valid by done
        |by rewrite checkRGBValue_invalid by done].
      rewrite M_bind_unfold.
      destruct (decide (0 ≤ g ≤ 255)) as [Hg|Hg];
        [rewrite checkRGBValue_valid by done
        |by rewrite checkRGBValue_invalid by done].
      rewrite M_bind_unfold.
      destruct (decide (0 ≤ b ≤ 255)) as [Hb|Hb];
        [tauto | by rewrite checkRGBValue_invalid by done].
    + by rewrite checkValidKeyIndex_invalid by done.
  - intros Hlen. unfold fillImage. rewrite M_bind_unfold.
    destruct (decide (0 ≤ keyIndex < NUM_KEYS)) as [Hk|Hk].
    + rewrite checkValidKeyIndex_valid by done. rewrite M_bind_unfold.
      destruct (sourceFormatOf fillOptions); simpl; by case_decide.
    + by rewrite checkValidKeyIndex_invalid by done.
Qed.

(** C9: [clearKey k] is [fillColor k 0 0 0], and [clearAllKeys] is the
    sequence of the calls [fillColor k 0 0 0] for k = 0, 1, ..., NUM_KEYS - 1
    in that order, NUM_KEYS calls in all (the sequence ends early only when
    one of the calls throws). *)
Theorem clearAllKeys_spec (d : Driver) :
  (∀ keyIndex d', clearKey keyIndex d' = fillColor keyIndex 0 0 0 d') ∧
  clearAllKeys d = for_of (seqZ 0 NUM_KEYS) (λ keyIndex, fillColor keyIndex 0 0 0) d ∧
  List.length (seqZ 0 NUM_KEYS) = Z.to_nat NUM_KEYS ∧
  seqZ 0 NUM_KEYS = Z.of_nat <$> seq 0 (Z.to_nat NUM_KEYS).
Proof.
  assert (Hkey : ∀ keyIndex d', clearKey keyIndex d' = fillColor keyIndex 0 0 0 d').
  { intros keyIndex d'. unfold clearKey, fillColor. rewrite !M_bind_unfold.
    destruct (decide (0 ≤ keyIndex < NUM_KEYS)) as [Hk|Hk].
    - rewrite checkValidKeyIndex_valid by done.
      by rewrite M_bind_unfold, checkValidKeyIndex_valid by done.
    - by rewrite checkValidKeyIndex_invalid by done. }
  split; [done|]. split; [|split].
  - unfold clearAllKeys. rewrite for_range_for_of.
    apply for_of_ext. intros k d' _. apply Hkey.
  - apply length_seqZ.
  - unfold seqZ. apply list_fmap_ext. intros i j _. lia.
Qed.

Lemma appends_hid_call (Q : call → Prop) (c : call) : Q c → appends Q (hid_call c).
Proof.
  intros Hc d. rewrite hid_call_unfold. exists [c]. split; [done | by constructor].
Qed.

Lemma appends_checkValidKeyIndex (Q : call → Prop) keyIndex :
  appends Q (checkValidKeyIndex keyIndex).
Proof.
  unfold checkValidKeyIndex. case_decide; [apply appends_throw | apply appends_ret].
Qed.

Lemma fillImageRange_appends keyIndex (imageBuffer : Buffer.t) sourceOptions :
  appends (convertsFrom (i_format sourceOptions))
    (fillImageRange keyIndex imageBuffer sourceOptions).
Proof.
  unfold fillImageRange.
  apply appends_bind; [apply appends_checkValidKeyIndex | intros _].
  apply appends_bind; [by apply appends_log_call | intros _].
  apply appends_bind; [apply appends_lift | intros byteBuffer].
  apply appends_bind; [apply appends_lift | intros packets].
  apply appends_for_of. intros packet. by apply appends_hid_call.
Qed.

Lemma sourceFormatOf_default (fillOptions : option FillImageOptions) :
  fillOptions ≫= format = None → sourceFormatOf fillOptions = rgb.
Proof. unfold sourceFormatOf. by intros ->. Qed.

(** C10: without options, or with options that carry no format, [fillImage]
    and [fillPanel] are the calls with format 'rgb': the buffer is checked
    against ICON_PIXELS * 3 (times NUM_KEYS for the panel), [fillImage]
    continues as [fillImageRange] with format 'rgb' and stride ICON_SIZE * 3,
    and every converter call made is made with format 'rgb'. *)
Theorem fill_default_format keyIndex (imageBuffer : Buffer.t)
    (fillOptions : option FillImageOptions) (d : Driver) :
  fillOptions ≫= format = None →
  let explicit := Some {| format := Some rgb |} in
  fillImage keyIndex imageBuffer fillOptions d = fillImage keyIndex imageBuffer explicit d ∧
  fillPanel imageBuffer fillOptions d = fillPanel imageBuffer explicit d ∧
  (0 ≤ keyIndex < NUM_KEYS →
     fillImage keyIndex imageBuffer fillOptions d =
     if decide (Buffer.length imageBuffer = ICON_PIXELS * 3) then
       fillImageRange (transformKeyIndex keyIndex) imageBuffer
         {| i_format := rgb; offset := 0; stride := ICON_SIZE deviceProperties * 3 |} d
     else
       (Throw (RangeError_imageLength (ICON_PIXELS * 3) (Buffer.length imageBuffer)), d)) ∧
  (Buffer.length imageBuffer ≠ ICON_PIXELS * 3 * NUM_KEYS →
     fillPanel imageBuffer fillOptions d =
     (Throw (RangeError_imageLength (ICON_PIXELS * 3 * NUM_KEYS)
               (Buffer.length imageBuffer)), d)) ∧
  appends (convertsFrom rgb) (fillImage keyIndex imageBuffer fillOptions) ∧
  appends (convertsFrom rgb) (fillPanel imageBuffer fillOptions).
Proof.
  intros Hdefault. apply sourceFormatOf_default in Hdefault as Hrgb. cbv zeta.
  split_and!.
  - unfold fillImage. by rewrite Hrgb.
  - unfold fillPanel. by rewrite Hrgb.
  - intros Hk. unfold fillImage. rewrite Hrgb. rewrite M_bind_unfold.
    rewrite checkValidKeyIndex_valid by done. rewrite M_bind_unfold. simpl.
    repeat case_decide; done.
  - intros Hlen. unfold fillPanel. rewrite Hrgb. rewrite M_bind_unfold. simpl.
    case_decide; done.
  - unfold fillImage. rewrite Hrgb.
    apply appends_bind; [apply appends_checkValidKeyIndex | intros _].
    apply appends_bind; [apply appends_ret | intros _].
    case_decide; [apply appends_throw | apply fillImageRange_appends].
  - unfold fillPanel. rewrite Hrgb.
    apply appends_bind; [apply appends_ret | intros _].
    case_decide; [apply appends_throw|].
    apply appends_for_range. intros row. apply appends_for_range. intros column.
    apply fillImageRange_appends.
Qed.

End DriverFacts.

(** ** The input-report listener *)

Lemma for_of_pure {A} (xs : list A) (body : A → M unit) (step : Driver → A → Driver)
    (d : Driver) :
  (∀ x d', body x d' = (Ok (), step d' x)) →
  for_of xs body d = (Ok (), foldl step d xs).
Proof.
  intros Hbody. revert d. induction xs as [|x xs IH]; intros d; [done|].
  simpl. rewrite M_bind_unfold, Hbody. apply IH.
Qed.

Lemma NoDup_fmap_inj_on {A B} (f : A → B) (l : list A) (x y : A) :
  NoDup (f <$> l) → x ∈ l → y ∈ l → f x = f y → x = y.
Proof.
  induction l as [|a l IH]; intros Hnd Hx Hy Hxy.
  - by apply elem_of_nil in Hx.
  - rewrite fmap_cons in Hnd. apply NoDup_cons in Hnd as [Ha Hnd].
    apply elem_of_cons in Hx as [->|Hx]; apply elem_of_cons in Hy as [->|Hy].
    + done.
    + exfalso. apply Ha. rewrite Hxy. by apply list_elem_of_fmap_2.
    + exfalso. apply Ha. rewrite <- Hxy. by apply list_elem_of_fmap_2.
    + by apply IH.
Qed.

Section ListenerFacts.
Context `{model : StreamDeckModel}.

Lemma onData_unfold (data : Buffer.t) (d : Driver) :
  onData data d = (Ok (), foldl (keyStep (reportKeyData data)) d (seqZ 0 NUM_KEYS)).
Proof.
  unfold onData. cbv zeta. rewrite for_range_for_of.
  apply for_of_pure. intros i d'.
  unfold keyStep, keyTransition, reportKeyData.
  rewrite M_bind_unfold. unfold get_keyState. cbn beta iota.
  case_bool_decide; [|done].
  rewrite M_bind_unfold. unfold set_keyState. cbn beta iota.
  by destruct (keyPressedAt _ i).
Qed.

Lemma keyTransition_Some (st : gmap Z bool) (keyData : Buffer.t) i e :
  keyTransition st keyData i = Some e ↔
  st !! transformKeyIndex i ≠ Some (keyPressedAt keyData i) ∧
  e = (if keyPressedAt keyData i then down (transformKeyIndex i)
       else up (transformKeyIndex i)).
Proof.
  unfold keyTransition. cbv zeta. case_bool_decide as Hne.
  - split; [intros [= <-]; done | intros [_ ->]; done].
  - split; [discriminate | intros [Hne' _]; by destruct Hne].
Qed.

Lemma keyTransition_None (st : gmap Z bool) (keyData : Buffer.t) i :
  keyTransition st keyData i = None ↔
  st !! transformKeyIndex i = Some (keyPressedAt keyData i).
Proof.
  unfold keyTransition. cbv zeta. case_bool_decide as Hne.
  - split; [discriminate | intros Heq; by destruct Hne].
  - split; [intros _ | done].
    destruct (decide (st !! transformKeyIndex i = Some (keyPressedAt keyData i)));
      [done | by destruct Hne].
Qed.

Lemma keyTransition_key (st : gmap Z bool) (keyData : Buffer.t) i e :
  keyTransition st keyData i = Some e → event_key e = transformKeyIndex i.
Proof.
  intros [_ ->]%keyTransition_Some. by destruct (keyPressedAt keyData i).
Qed.

(** One turn leaves the other cells alone and stores the reported value in
    the cell of the transformed index. *)
Lemma keyStep_other (keyData : Buffer.t) (d : Driver) i k :
  k ≠ transformKeyIndex i → keyState (keyStep keyData d i) !! k = keyState d !! k.
Proof.
  intros Hk. unfold keyStep. destruct (keyTransition _ _ _); [|done].
  simpl. by rewrite lookup_insert_ne.
Qed.

Lemma keyStep_stored (keyData : Buffer.t) (d : Driver) i :
  keyState (keyStep keyData d i) !! transformKeyIndex i = Some (keyPressedAt keyData i).
Proof.
  unfold keyStep. destruct (keyTransition _ _ _) eqn:Ht.
  - simpl. by rewrite lookup_insert_eq.
  - by apply keyTransition_None.
Qed.

Lemma keyStep_emitted (keyData : Buffer.t) (d : Driver) i :
  emitted (keyStep keyData d i) =
  emitted d ++ option_list (keyTransition (keyState d) keyData i).
Proof.
  unfold keyStep. destruct (keyTransition _ _ _); simpl; [done|].
  by rewrite app_nil_r.
Qed.

Lemma keySteps_other (keyData : Buffer.t) (keys : list Z) (d : Driver) k :
  k ∉ transformKeyIndex <$> keys →
  keyState (foldl (keyStep keyData) d keys) !! k = keyState d !! k.
Proof.
  revert d. induction keys as [|i keys IH]; intros d Hk; [done|].
  rewrite fmap_cons in Hk. apply not_elem_of_cons in Hk as [Hi Hk].
  simpl. rewrite IH by done. by apply keyStep_other.
Qed.

Lemma keySteps_stored (keyData : Buffer.t) (keys : list Z) (d : Driver) i :
  NoDup (transformKeyIndex <$> keys) → i ∈ keys →
  keyState (foldl (keyStep keyData) d keys) !! transformKeyIndex i =
  Some (keyPressedAt keyData i).
Proof.
  revert d. induction keys as [|j keys IH]; intros d Hnd Hi.
  - by apply elem_of_nil in Hi.
  - rewrite fmap_cons in Hnd. apply NoDup_cons in Hnd as [Hj Hnd]. simpl.
    apply elem_of_cons in Hi as [->|Hi].
    + rewrite keySteps_other by done. apply keyStep_stored.
    + by apply IH.
Qed.

Lemma keySteps_emitted (keyData : Buffer.t) (keys : list Z) (d : Driver) :
  NoDup (transformKeyIndex <$> keys) →
  emitted (foldl (keyStep keyData) d keys) =
  emitted d ++ omap (keyTransition (keyState d) keyData) keys.
Proof.
  revert d. induction keys as [|j keys IH]; intros d Hnd.
  - simpl. by rewrite app_nil_r.
  - rewrite fmap_cons in Hnd. apply NoDup_cons in Hnd as [Hj Hnd]. simpl.
    rewrite IH, keyStep_emitted by done.
    rewrite <- app_assoc. f_equal.
    assert (Hsame : omap (keyTransition (keyState (keyStep keyData d j)) keyData) keys =
                    omap (keyTransition (keyState d) keyData) keys).
    { apply list_omap_ext, Forall_Forall2_diag, Forall_forall. intros x Hx.
      unfold keyTransition. cbv zeta. rewrite keyStep_other; [done|].
      intros Heq. apply Hj. rewrite <- Heq. by apply list_elem_of_fmap_2. }
    rewrite Hsame. by destruct (keyTransition (keyState d) keyData j).
Qed.


(** The events of one report, at most one per key. *)
Lemma keyTransitions_NoDup (st : gmap Z bool) (keyData : Buffer.t) (keys : list Z) :
  NoDup (transformKeyIndex <$> keys) →
  NoDup (event_key <$> omap (keyTransition st keyData) keys).
Proof.
  induction keys as [|j keys IH]; intros Hnd; [constructor|].
  rewrite fmap_cons in Hnd. apply NoDup_cons in Hnd as [Hj Hnd]. simpl.
  destruct (keyTransition st keyData j) as [e|] eqn:He; [|by apply IH].
  rewrite fmap_cons. apply NoDup_cons. split; [|by apply IH].
  intros (e' & Hk & (x & Hx & Hxe)%list_elem_of_omap)%list_elem_of_fmap.
  apply keyTransition_key in He, Hxe.
  apply Hj. rewrite <- He, Hk, Hxe. by apply list_elem_of_fmap_2.
Qed.

Lemma keyTransitions_settled (st : gmap Z bool) (keyData : Buffer.t) (keys : list Z) :
  (∀ i, i ∈ keys → st !! transformKeyIndex i = Some (keyPressedAt keyData i)) →
  omap (keyTransition st keyData) keys = [].
Proof.
  induction keys as [|j keys IH]; intros Hst; [done|]. simpl.
  rewrite (proj2 (keyTransition_None st keyData j)) by (apply Hst; left).
  apply IH. intros i Hi. apply Hst. by right.
Qed.

(** An event for the key of native index [i] comes from the turn of [i]. *)
Lemma keyTransitions_elem (st : gmap Z bool) (keyData : Buffer.t) (keys : list Z) i e :
  NoDup (transformKeyIndex <$> keys) → i ∈ keys →
  event_key e = transformKeyIndex i →
  e ∈ omap (keyTransition st keyData) keys ↔ keyTransition st keyData i = Some e.
Proof.
  intros Hnd Hi Hkey. rewrite list_elem_of_omap. split.
  - intros (x & Hx & Hxe).
    assert (x = i) as ->; [|done].
    apply (NoDup_fmap_inj_on transformKeyIndex keys); try done.
    apply keyTransition_key in Hxe. congruence.
  - intros He. by exists i.
Qed.

(** C7: the listener never throws; one report emits, in native key order,
    one event for every key whose reported boolean differs from the stored
    state of that key, and none for the others: a [down] when the key is
    reported pressed, an [up] otherwise; at most one event per key; and the
    same report processed again emits nothing. *)
Theorem onData_change_driven (data : Buffer.t) (d : Driver) :
  NoDup (transformKeyIndex <$> seqZ 0 NUM_KEYS) →
  let keyData := reportKeyData data in
  let d' := (onData data d).2 in
  let new := omap (keyTransition (keyState d) keyData) (seqZ 0 NUM_KEYS) in
  (onData data d).1 = Ok () ∧
  emitted d' = emitted d ++ new ∧
  (∀ i, 0 ≤ i < NUM_KEYS →
     (down (transformKeyIndex i) ∈ new ↔
        keyPressedAt keyData i = true ∧
        keyState d !! transformKeyIndex i ≠ Some true) ∧
     (up (transformKeyIndex i) ∈ new ↔
        keyPressedAt keyData i = false ∧
        keyState d !! transformKeyIndex i ≠ Some false)) ∧
  NoDup (event_key <$> new) ∧
  emitted (onData data d').2 = emitted d'.
Proof.
  intros Hnd. cbv zeta. rewrite !onData_unfold. simpl.
  split; [done|]. split; [by apply keySteps_emitted|].
  split; [|split].
  - intros i Hi.
    assert (Hin : i ∈ seqZ 0 NUM_KEYS) by (apply elem_of_seqZ; lia).
    rewrite !keyTransitions_elem, !keyTransition_Some by done.
    destruct (keyPressedAt (reportKeyData data) i); intuition congruence.
  - by apply keyTransitions_NoDup.
  - rewrite keySteps_emitted by done.
    rewrite keyTransitions_settled; [by rewrite app_nil_r|].
    intros i Hi. by apply keySteps_stored.
Qed.

(** C3 (amended): for each native index [i] below NUM_KEYS the byte of
    native key [i] is compared against, and stored into, the state cell at
    the transformed index [transformKeyIndex i], the index the event is
    tagged with; cells outside the transformed indices are not touched. *)
Theorem onData_state_cells (data : Buffer.t) (d : Driver) :
  NoDup (transformKeyIndex <$> seqZ 0 NUM_KEYS) →
  let keyData := reportKeyData data in
  let d' := (onData data d).2 in
  (∀ i, 0 ≤ i < NUM_KEYS →
     keyState d' !! transformKeyIndex i = Some (keyPressedAt keyData i)) ∧
  (∀ i, 0 ≤ i < NUM_KEYS →
     (∃ e, e ∈ drop (List.length (emitted d)) (emitted d') ∧
           event_key e = transformKeyIndex i) ↔
     keyState d !! transformKeyIndex i ≠ Some (keyPressedAt keyData i)) ∧
  (∀ k, k ∉ transformKeyIndex <$> seqZ 0 NUM_KEYS →
     keyState d' !! k = keyState d !! k).
Proof.
  intros Hnd. cbv zeta. rewrite !onData_unfold. simpl.
  split; [|split].
  - intros i Hi. apply keySteps_stored; [done|]. apply elem_of_seqZ. lia.
  - intros i Hi.
    assert (Hin : i ∈ seqZ 0 NUM_KEYS) by (apply elem_of_seqZ; lia).
    rewrite keySteps_emitted, drop_app_length by done. split.
    + intros (e & He & Hkey).
      apply (keyTransitions_elem _ _ _ i) in He; [|done..].
      by apply keyTransition_Some in He as [? _].
    + intros Hne.
      exists (if keyPressedAt (reportKeyData data) i then down (transformKeyIndex i)
              else up (transformKeyIndex i)).
      split; [|by destruct (keyPressedAt _ i)].
      apply (keyTransitions_elem _ _ _ i); [done | done | by destruct (keyPressedAt _ i) |].
      by apply keyTransition_Some.
  - intros k Hk. by apply keySteps_other.
Qed.

End ListenerFacts.

(** ** The driver on concrete inputs *)

Lemma setBrightness_spec_witness :
  (@setBrightness reliable 150 (@constructed duo) =
     (Throw RangeError_brightness, @constructed duo)) ∧
  (@setBrightness reliable 50 (@constructed duo) =
     (Ok (),
      logged (Call_sendFeatureReport
                [0x05; 0x55; 0xAA; 0xD1; 0x01; 50; 0; 0; 0; 0; 0; 0; 0; 0; 0; 0; 0])
        (@constructed duo))).
Proof.
  split.
  - apply (proj1 (@setBrightness_spec reliable 150 (@constructed duo))). lia.
  - apply (proj2 (@setBrightness_spec reliable 50 (@constructed duo))). lia.
Defined.

(** C2 (as stated) fails when the reset feature report is rejected: [close]
    throws, its log ends with the rejected report, and the handle is never
    closed although the transport would have accepted the call. *)
Lemma close_reset_error_skips_device_close :
  let r := @close duo noFeatureReports (@constructed duo) in
  fst r = Throw (HIDError 1) ∧
  calls (snd r) = [Call_releaseExitHook; Call_sendFeatureReport resetReport] ∧
  (Call_close ∉ calls (snd r)) ∧
  @hid_fault noFeatureReports (calls (snd r)) Call_close = None.
Proof.
  cbv zeta.
  assert (Hr : @close duo noFeatureReports (@constructed duo) =
               (Throw (HIDError 1),
                logged (Call_sendFeatureReport resetReport)
                  (logged Call_releaseExitHook (@constructed duo))))
    by (vm_compute; reflexivity).
  rewrite Hr. simpl. split_and!; try done.
  rewrite !not_elem_of_cons. split_and!; [done | done | apply not_elem_of_nil].
Qed.

Lemma close_spec_witness :
  let d := @constructed duo in
  let reset := Call_sendFeatureReport resetReport in
  (@close duo noFeatureReports d =
     (Throw (HIDError 1), logged reset (logged Call_releaseExitHook d)) ∧
   @exitHookHandler duo noFeatureReports d =
     (Ok (), logged reset (logged Call_releaseExitHook d)) ∧
   Call_close ∉ drop (List.length (calls d)) (calls (@close duo noFeatureReports d).2)) ∧
  calls (@close duo reliable d).2 = calls d ++ [Call_releaseExitHook; reset; Call_close].
Proof.
  split.
  - apply (proj1 (@close_spec duo noFeatureReports (@constructed duo))); reflexivity.
  - apply (proj1 (proj2 (@close_spec duo reliable (@constructed duo)))); reflexivity.
Defined.

Lemma validation_fail_fast_witness :
  @fillColor duo reliable 0 256 0 0 (@constructed duo) =
    (Throw TypeError_rgbValue, @constructed duo) ∧
  @fillImage duo reliable 0 [1; 2] None (@constructed duo) =
    (Throw (RangeError_imageLength 3 2), @constructed duo).
Proof.
  split.
  - apply (proj1 (@validation_fail_fast duo reliable 0 256 0 0 [1; 2] None
                    (@constructed duo))). lia.
  - apply (proj2 (@validation_fail_fast duo reliable 0 256 0 0 [1; 2] None
                    (@constructed duo))). vm_compute. discriminate.
Defined.

Lemma fill_default_format_witness :
  let d := @constructed duo in
  let explicit := Some {| format := Some rgb |} in
  @fillImage duo reliable 0 [1; 2; 3] None d = @fillImage duo reliable 0 [1; 2; 3] explicit d ∧
  @fillPanel duo reliable [1; 2; 3] None d = @fillPanel duo reliable [1; 2; 3] explicit d ∧
  (0 ≤ 0 < @NUM_KEYS duo →
     @fillImage duo reliable 0 [1; 2; 3] None d =
     if decide (Buffer.length [1; 2; 3] = @ICON_PIXELS duo * 3) then
       @fillImageRange duo reliable (@transformKeyIndex duo 0) [1; 2; 3]
         {| i_format := rgb; offset := 0;
            stride := ICON_SIZE (@deviceProperties duo) * 3 |} d
     else
       (Throw (RangeError_imageLength (@ICON_PIXELS duo * 3) (Buffer.length [1; 2; 3])), d)) ∧
  (Buffer.length [1; 2; 3] ≠ @ICON_PIXELS duo * 3 * @NUM_KEYS duo →
     @fillPanel duo reliable [1; 2; 3] None d =
     (Throw (RangeError_imageLength (@ICON_PIXELS duo * 3 * @NUM_KEYS duo)
               (Buffer.length [1; 2; 3])), d)) ∧
  appends (convertsFrom rgb) (@fillImage duo reliable 0 [1; 2; 3] None) ∧
  appends (convertsFrom rgb) (@fillPanel duo reliable [1; 2; 3] None).
Proof.
  apply (@fill_default_format duo reliable 0 [1; 2; 3] None (@constructed duo)).
  reflexivity.
Defined.

(** What the default-format fill sends for a one-pixel icon: the converter
    is called with 'rgb', then one packet goes to key 0's native index 1. *)
Example fillImage_default_calls :
  @fillImage duo reliable 0 [1; 2; 3] None (@constructed duo) =
  (Ok (),
   {| keyState := keyState (@constructed duo);
      emitted := [];
      calls :=
        [Call_convertFillImage [1; 2; 3] {| i_format := rgb; offset := 0; stride := 3 |};
         Call_write [2; 1; 0; 0; 1; 2; 0; 0; 0; 0; 0; 0; 0; 0; 0; 0; 1; 2; 3; 0]] |}).
Proof. vm_compute. reflexivity. Qed.

Lemma onData_change_driven_witness :
  let data := [1; 1; 0; 0] in
  let d := @constructed duo in
  let keyData := @reportKeyData duo data in
  let d' := (@onData duo data d).2 in
  let new := omap (@keyTransition duo (keyState d) keyData) (seqZ 0 (@NUM_KEYS duo)) in
  (@onData duo data d).1 = Ok () ∧
  emitted d' = emitted d ++ new ∧
  (∀ i, 0 ≤ i < @NUM_KEYS duo →
     (down (@transformKeyIndex duo i) ∈ new ↔
        keyPressedAt keyData i = true ∧
        keyState d !! @transformKeyIndex duo i ≠ Some true) ∧
     (up (@transformKeyIndex duo i) ∈ new ↔
        keyPressedAt keyData i = false ∧
        keyState d !! @transformKeyIndex duo i ≠ Some false)) ∧
  NoDup (event_key <$> new) ∧
  emitted (@onData duo data d').2 = emitted d'.
Proof.
  apply (@onData_change_driven duo [1; 1; 0; 0] (@constructed duo)).
  apply (bool_decide_unpack _). vm_compute. exact I.
Defined.

(** The report of the witness presses native key 0, logical key 1. *)
Example onData_press_native_0 :
  emitted (@onData duo [1; 1; 0; 0] (@constructed duo)).2 = [down 1] ∧
  emitted (@onData duo [1; 1; 0; 0] (@onData duo [1; 1; 0; 0] (@constructed duo)).2).2
    = [down 1].
Proof. split; vm_compute; reflexivity. Qed.

(** C3 (as stated) fails on a right-to-left row: the report presses native
    key 0, yet cell 0 of the state array stays false and cell 1, the
    transformed index, is the one written. *)
Lemma onData_native_cell_counterexample :
  let data := [1; 1; 0; 0] in
  let d' := (@onData duo data (@constructed duo)).2 in
  keyPressedAt (@reportKeyData duo data) 0 = true ∧
  keyState d' !! 0 = Some false ∧
  keyState d' !! 1 = Some true ∧
  ¬ (∀ i, 0 ≤ i < @NUM_KEYS duo →
        keyState d' !! i = Some (keyPressedAt (@reportKeyData duo data) i)).
Proof.
  cbv zeta.
  assert (H0 : keyState (@onData duo [1; 1; 0; 0] (@constructed duo)).2 !! 0 = Some false)
    by (vm_compute; reflexivity).
  assert (Hp : keyPressedAt (@reportKeyData duo [1; 1; 0; 0]) 0 = true)
    by (vm_compute; reflexivity).
  split_and!; [done | done | vm_compute; reflexivity |].
  intros Hall. specialize (Hall 0). rewrite H0, Hp in Hall.
  assert (Hr : 0 ≤ 0 < @NUM_KEYS duo) by (vm_compute; split; discriminate || reflexivity).
  specialize (Hall Hr). discriminate.
Qed.

Lemma onData_state_cells_witness :
  let data := [1; 1; 0; 0] in
  let d := @constructed duo in
  let keyData := @reportKeyData duo data in
  let d' := (@onData duo data d).2 in
  (∀ i, 0 ≤ i < @NUM_KEYS duo →
     keyState d' !! @transformKeyIndex duo i = Some (keyPressedAt keyData i)) ∧
  (∀ i, 0 ≤ i < @NUM_KEYS duo →
     (∃ e, e ∈ drop (List.length (emitted d)) (emitted d') ∧
           event_key e = @transformKeyIndex duo i) ↔
     keyState d !! @transformKeyIndex duo i ≠ Some (keyPressedAt keyData i)) ∧
  (∀ k, k ∉ @transformKeyIndex duo <$> seqZ 0 (@NUM_KEYS duo) →
     keyState d' !! k = keyState d !! k).
Proof.
  apply (@onData_state_cells duo [1; 1; 0; 0] (@constructed duo)).
  apply (bool_decide_unpack _). vm_compute. exact I.
Defined.

(** * Further properties *)

(** ** The packet framer, continued *)

Lemma generateFillImageWrites_Ok_iff_witness :
  (∃ packets, @generateFillImageWrites duo 1 [1; 2; 3; 4; 5; 6; 7; 8; 9] = Ok packets) ↔
  [1; 2; 3; 4; 5; 6; 7; 8; 9] = [] ∨ (-1 ≤ 1 ≤ 254 ∧ ceil_div 9 (20 - 16) ≤ 65536).
Proof.
  apply (@generateFillImageWrites_Ok_iff duo 1 [1; 2; 3; 4; 5; 6; 7; 8; 9]).
  reflexivity.
Defined.

Section FramerMore.
Context `{model : StreamDeckModel}.

#[local] Abbreviation P := getFillImagePacketLength.
#[local] Abbreviation HEADER := getFillImageCommandHeaderLength.
#[local] Abbreviation MAX_PAYLOAD := (getFillImagePacketLength - getFillImageCommandHeaderLength).

(** What a successful turn leaves to send. *)
Lemma fillImagePacket_remaining keyIndex (byteBuffer : Buffer.t) part remainingBytes packet rem' :
  fillImagePacket keyIndex byteBuffer part remainingBytes = Ok (packet, rem') →
  rem' = remainingBytes - Z.min remainingBytes MAX_PAYLOAD.
Proof.
  unfold fillImagePacket. intros Hr.
  apply res_bind_inv in Hr as (p0 & _ & Hr).
  apply res_bind_inv in Hr as (p1 & _ & Hr).
  apply res_bind_inv in Hr as (p2 & _ & Hr).
  by injection Hr as _ <-.
Qed.

(** Without room for a payload the loop never reaches its exit. *)
Lemma fillImageLoop_no_payload fuel keyIndex (byteBuffer : Buffer.t) part remainingBytes
    result packets :
  P ≤ HEADER → remainingBytes > 0 →
  fillImageLoop fuel keyIndex byteBuffer part remainingBytes result ≠ Some (Ok packets).
Proof.
  intros HP. revert part remainingBytes result.
  induction fuel as [|fuel IH]; intros part rem result Hrem; simpl.
  - by case_decide.
  - case_decide; [|done].
    destruct (fillImagePacket keyIndex byteBuffer part rem) as [[packet rem']|e] eqn:Hpk;
      [|done].
    apply fillImagePacket_remaining in Hpk. apply IH. lia.
Qed.

(** X2: a model whose packet length leaves no room after the header cannot
    frame anything: for every non-empty buffer the framer throws (it neither
    returns packets nor runs forever). *)
Theorem generateFillImageWrites_no_payload_room keyIndex (byteBuffer : Buffer.t) :
  P ≤ HEADER → byteBuffer ≠ [] →
  ∃ e, generateFillImageWrites keyIndex byteBuffer = Throw e.
Proof.
  intros HP Hne.
  assert (Hlen : Buffer.length byteBuffer > 0).
  { destruct byteBuffer; [done | unfold Buffer.length; simpl; lia]. }
  pose proof (fillImageLoop_total keyIndex byteBuffer) as Htotal.
  destruct (generateFillImageWrites keyIndex byteBuffer) as [packets|e]; [|by exists e].
  by apply fillImageLoop_no_payload in Htotal.
Qed.

(** X3: in every packet the framer returns, header bytes 6 to 15 are zero:
    only bytes 0 to 5 of the 16-byte header are ever written. *)
Theorem generateFillImageWrites_reserved_bytes keyIndex (byteBuffer : Buffer.t) :
  HEADER < P → 0 ≤ keyIndex ≤ 254 →
  ceil_div (Buffer.length byteBuffer) MAX_PAYLOAD ≤ 65536 →
  ∃ packets,
    generateFillImageWrites keyIndex byteBuffer = Ok packets ∧
    ∀ (packet : Buffer.t) (i : nat),
      packet ∈ packets → (6 ≤ i < 16)%nat → packet !! i = Some 0.
Proof.
  intros HP Hk Hn.
  eexists. split; [apply generateFillImageWrites_closed; done || lia|].
  intros packet i (j & -> & _)%list_elem_of_fmap Hi.
  unfold framedPacket.
  do 16 (destruct i as [|i]; [try lia; try done|]). lia.
Qed.

(** X4: the final-part flag (header byte 4) is 1 in the last packet and 0 in
    every packet before it. *)
Theorem generateFillImageWrites_last_flag keyIndex (byteBuffer : Buffer.t) :
  HEADER < P → 0 ≤ keyIndex ≤ 254 →
  ceil_div (Buffer.length byteBuffer) MAX_PAYLOAD ≤ 65536 →
  ∃ packets,
    generateFillImageWrites keyIndex byteBuffer = Ok packets ∧
    ∀ (j : nat) (packet : Buffer.t), packets !! j = Some packet →
      packet !! 4%nat = Some (if decide (S j = List.length packets) then 1 else 0).
Proof.
  intros HP Hk Hn.
  pose proof (Buffer_length_nonneg byteBuffer) as Hlen.
  destruct (ceil_div_spec (Buffer.length byteBuffer) MAX_PAYLOAD) as [Hn0 Hspec];
    [done | lia |].
  eexists. split; [apply generateFillImageWrites_closed; done || lia|].
  intros j packet Hj. apply framedPacket_lookup in Hj as [-> Hjn].
  rewrite length_fmap, length_seqZ.
  unfold framedPacket. simpl. f_equal.
  case_bool_decide; case_decide; try done; unfold getFillImageCommandHeaderLength in *; nia.
Qed.

End FramerMore.

Lemma generateFillImageWrites_no_payload_room_witness :
  ∃ e, @generateFillImageWrites
         (gridModel (@deviceProperties duo) (@options duo) 16) 0 [1; 2; 3] = Throw e.
Proof.
  apply (@generateFillImageWrites_no_payload_room
           (gridModel (@deviceProperties duo) (@options duo) 16) 0 [1; 2; 3]).
  - vm_compute. discriminate.
  - discriminate.
Defined.

Lemma generateFillImageWrites_reserved_bytes_witness :
  ∃ packets,
    @generateFillImageWrites duo 1 [1; 2; 3; 4; 5; 6; 7; 8; 9] = Ok packets ∧
    ∀ (packet : Buffer.t) (i : nat),
      packet ∈ packets → (6 ≤ i < 16)%nat → packet !! i = Some 0.
Proof.
  apply (@generateFillImageWrites_reserved_bytes duo 1 [1; 2; 3; 4; 5; 6; 7; 8; 9]).
  - reflexivity.
  - lia.
  - vm_compute. discriminate.
Defined.

Lemma generateFillImageWrites_last_flag_witness :
  ∃ packets,
    @generateFillImageWrites duo 1 [1; 2; 3; 4; 5; 6; 7; 8; 9] = Ok packets ∧
    ∀ (j : nat) (packet : Buffer.t), packets !! j = Some packet →
      packet !! 4%nat = Some (if decide (S j = List.length packets) then 1 else 0).
Proof.
  apply (@generateFillImageWrites_last_flag duo 1 [1; 2; 3; 4; 5; 6; 7; 8; 9]).
  - reflexivity.
  - lia.
  - vm_compute. discriminate.
Defined.

(** ** Drawing, continued *)

Lemma length_join_replicate {A} (n : nat) (l : list A) :
  List.length (mjoin (replicate n l)) = (n * List.length l)%nat.
Proof. induction n as [|n IH]; simpl; [done|]. rewrite length_app, IH. done. Qed.

Section DriverMore.
Context `{model : StreamDeckModel} `{hid : Transport}.

Lemma ICON_PIXELS_nonneg : 0 ≤ ICON_PIXELS.
Proof. unfold ICON_PIXELS. nia. Qed.

Lemma solidPixels_length r g b : Buffer.length (solidPixels r g b) = ICON_BYTES.
Proof.
  pose proof ICON_PIXELS_nonneg.
  unfold Buffer.length, solidPixels, ICON_BYTES. rewrite length_join_replicate. simpl. lia.
Qed.

Lemma alloc_fill_solid r g b :
  0 ≤ r ≤ 255 → 0 ≤ g ≤ 255 → 0 ≤ b ≤ 255 →
  Buffer.alloc_fill ICON_BYTES (Buffer.from [r; g; b]) = Ok (solidPixels r g b).
Proof.
  intros Hr Hg Hb. pose proof ICON_PIXELS_nonneg.
  rewrite Buffer_from_bytes by (repeat (constructor; [lia|]); constructor).
  unfold Buffer.alloc_fill, ICON_BYTES. case_decide; [lia|]. f_equal.
  unfold solidPixels.
  replace (Z.to_nat (ICON_PIXELS * 3))
    with (Z.to_nat ICON_PIXELS + 2 * Z.to_nat ICON_PIXELS)%nat at 2 by lia.
  rewrite replicate_add, join_app.
  apply take_app_length'. rewrite length_join_replicate. simpl. lia.
Qed.



(** X6: nothing is written when the key is invalid, or when the conversion
    or the framing throws: an invalid key is refused before the converter is
    called, and all packets are built before the first one is written. *)
Theorem fillImageRange_no_write_on_failure keyIndex (imageBuffer : Buffer.t) sourceOptions
    (d : Driver) :
  (¬ 0 ≤ keyIndex < NUM_KEYS →
     fillImageRange keyIndex imageBuffer sourceOptions d = (Throw TypeError_keyIndex, d)) ∧
  (0 ≤ keyIndex < NUM_KEYS →
   ∀ e, convertFillImage imageBuffer sourceOptions ≫= generateFillImageWrites keyIndex
        = Throw e →
     fillImageRange keyIndex imageBuffer sourceOptions d =
     (Throw e, logged (Call_convertFillImage imageBuffer sourceOptions) d)).
Proof.
  unfold fillImageRange. split.
  - intros Hk. by rewrite M_bind_unfold, checkValidKeyIndex_invalid by done.
  - intros Hk e He.
    rewrite M_bind_unfold, checkValidKeyIndex_valid by done. run_binds.
    unfold lift.
    destruct (convertFillImage imageBuffer sourceOptions) as [byteBuffer|e'];
      cbn beta iota.
    + rewrite res_bind_Ok in He. rewrite M_bind_unfold, He. done.
    + rewrite res_bind_Throw in He. by injection He as ->.
Qed.

(** X7: for colour components in [0, 255], [fillColor] is [fillImage] of the
    solid image, ICON_PIXELS pixels (r, g, b), in format 'rgb'; that image
    has exactly ICON_BYTES bytes. *)
Theorem fillColor_is_fillImage keyIndex r g b (d : Driver) :
  0 ≤ r ≤ 255 → 0 ≤ g ≤ 255 → 0 ≤ b ≤ 255 →
  fillColor keyIndex r g b d =
    fillImage keyIndex (solidPixels r g b) (Some {| format := Some rgb |}) d ∧
  Buffer.length (solidPixels r g b) = ICON_BYTES.
Proof.
  intros Hr Hg Hb. split; [|apply solidPixels_length].
  unfold fillColor, fillImage. rewrite !M_bind_unfold.
  destruct (decide (0 ≤ keyIndex < NUM_KEYS)) as [Hk|Hk].
  - rewrite checkValidKeyIndex_valid by done.
    rewrite M_bind_unfold, checkRGBValue_valid by done.
    rewrite M_bind_unfold, checkRGBValue_valid by done.
    rewrite M_bind_unfold, checkRGBValue_valid by done.
    rewrite M_bind_unfold. unfold lift. rewrite alloc_fill_solid by done.
    cbn beta iota. rewrite M_bind_unfold. simpl.
    rewrite solidPixels_length. unfold ICON_BYTES.
    case_decide; [done|]. done.
  - by rewrite checkValidKeyIndex_invalid by done.
Qed.

Lemma for_of_writes_accepted (packets : list Buffer.t) (d : Driver) :
  (∀ before packet, hid_fault before (Call_write packet) = None) →
  for_of packets (λ packet, hid_call (Call_write packet)) d =
  (Ok (), {| keyState := keyState d; emitted := emitted d;
             calls := calls d ++ (Call_write <$> packets) |}).
Proof.
  intros Hacc. revert d. induction packets as [|packet packets IH]; intros d.
  - simpl. rewrite app_nil_r. by destruct d.
  - simpl. rewrite M_bind_unfold, hid_call_unfold. unfold hid_outcome.
    rewrite Hacc. rewrite IH. simpl. by rewrite <- app_assoc.
Qed.

(** X8: a valid [fillImage] on a transport that accepts writes: for a valid
    key whose transformed index is valid, a buffer of the length the format
    asks for, and a conversion and framing that succeed, [fillImage] returns
    normally, having called the converter once, with offset 0 and a stride of
    one icon row, and then written every packet of the framed image, in
    order. *)
Theorem fillImage_sends_all keyIndex (imageBuffer : Buffer.t)
    (fillOptions : option FillImageOptions) (byteBuffer : Buffer.t)
    (packets : list Buffer.t) (d : Driver) :
  let sourceFormat := sourceFormatOf fillOptions in
  let sourceOptions :=
    {| i_format := sourceFormat; offset := 0;
       stride := ICON_SIZE deviceProperties * format_length sourceFormat |} in
  0 ≤ keyIndex < NUM_KEYS →
  0 ≤ transformKeyIndex keyIndex < NUM_KEYS →
  Buffer.length imageBuffer = ICON_PIXELS * format_length sourceFormat →
  convertFillImage imageBuffer sourceOptions = Ok byteBuffer →
  generateFillImageWrites (transformKeyIndex keyIndex) byteBuffer = Ok packets →
  (∀ before packet, hid_fault before (Call_write packet) = None) →
  fillImage keyIndex imageBuffer fillOptions d =
  (Ok (), {| keyState := keyState d; emitted := emitted d;
             calls := calls d ++ Call_convertFillImage imageBuffer sourceOptions
                                 :: (Call_write <$> packets) |}).
Proof.
  cbv zeta. intros Hk Htk Hlen Hconv Hframe Hacc.
  unfold fillImage. rewrite M_bind_unfold, checkValidKeyIndex_valid by done.
  rewrite M_bind_unfold.
  assert (Hfmt : checkSourceFormat (sourceFormatOf fillOptions) d = (Ok (), d))
    by (by destruct (sourceFormatOf fillOptions)).
  rewrite Hfmt. case_decide; [done|].
  unfold fillImageRange.
  rewrite M_bind_unfold, checkValidKeyIndex_valid by done. run_binds.
  unfold lift. rewrite Hconv. cbn beta iota.
  rewrite M_bind_unfold. rewrite Hframe. cbn beta iota.
  rewrite for_of_writes_accepted by done. simpl. by rewrite <- app_assoc.
Qed.

End DriverMore.


Lemma fillImageRange_no_write_on_failure_witness :
  @fillImageRange duo reliable 5 [1; 2; 3]
    {| i_format := rgb; offset := 0; stride := 3 |} (@constructed duo) =
    (Throw TypeError_keyIndex, @constructed duo) ∧
  @fillImageRange duoBroken reliable 1 [1; 2; 3]
    {| i_format := rgb; offset := 0; stride := 3 |} (@constructed duo) =
    (Throw (ConvertError 7),
     logged (Call_convertFillImage [1; 2; 3] {| i_format := rgb; offset := 0; stride := 3 |})
       (@constructed duo)).
Proof.
  split.
  - apply (proj1 (@fillImageRange_no_write_on_failure duo reliable 5 [1; 2; 3]
                    {| i_format := rgb; offset := 0; stride := 3 |} (@constructed duo))).
    vm_compute. intros [_ Hlt]. discriminate.
  - apply (proj2 (@fillImageRange_no_write_on_failure duoBroken reliable 1 [1; 2; 3]
                    {| i_format := rgb; offset := 0; stride := 3 |} (@constructed duo))).
    + split; [discriminate | reflexivity].
    + reflexivity.
Defined.

Lemma fillColor_is_fillImage_witness :
  @fillColor duo reliable 0 10 20 30 (@constructed duo) =
    @fillImage duo reliable 0 (@solidPixels duo 10 20 30)
      (Some {| format := Some rgb |}) (@constructed duo) ∧
  Buffer.length (@solidPixels duo 10 20 30) = @ICON_BYTES duo.
Proof.
  apply (@fillColor_is_fillImage duo reliable 0 10 20 30 (@constructed duo)); lia.
Defined.

Lemma fillImage_sends_all_witness :
  @fillImage duo reliable 0 [1; 2; 3] None (@constructed duo) =
  (Ok (),
   {| keyState := keyState (@constructed duo);
      emitted := emitted (@constructed duo);
      calls :=
        calls (@constructed duo)
        ++ Call_convertFillImage [1; 2; 3] {| i_format := rgb; offset := 0; stride := 3 |}
           :: (Call_write <$>
                 [[2; 1; 0; 0; 1; 2; 0; 0; 0; 0; 0; 0; 0; 0; 0; 0; 1; 2; 3; 0]]) |}).
Proof.
  apply (@fillImage_sends_all duo reliable 0 [1; 2; 3] None [1; 2; 3]
           [[2; 1; 0; 0; 1; 2; 0; 0; 0; 0; 0; 0; 0; 0; 0; 0; 1; 2; 3; 0]]
           (@constructed duo)).
  - split; [discriminate | reflexivity].
  - split; [discriminate | reflexivity].
  - reflexivity.
  - reflexivity.
  - vm_compute. reflexivity.
  - intros before packet. reflexivity.
Defined.

(** ** Key state and drawing are independent *)

Lemma keeps_ret {A} (a : A) : keeps_keys (mret a).
Proof. by intros d. Qed.

Lemma keeps_throw {A} (e : error) : keeps_keys (throw (A:=A) e).
Proof. by intros d. Qed.

Lemma keeps_lift {A} (r : res A) : keeps_keys (lift r).
Proof. by intros d. Qed.

Lemma keeps_log_call (c : call) : keeps_keys (log_call c).
Proof. by intros d. Qed.

Lemma keeps_bind {A B} (m : M A) (f : A → M B) :
  keeps_keys m → (∀ a, keeps_keys (f a)) → keeps_keys (m ≫= f).
Proof.
  intros Hm Hf d. rewrite M_bind_unfold.
  destruct (Hm d) as [Hk He]. destruct (m d) as [[a|e] d1]; simpl in *; [|done].
  destruct (Hf a d1) as [Hk' He']. by rewrite Hk', He'.
Qed.

Lemma keeps_for_of {A} (xs : list A) (body : A → M unit) :
  (∀ x, keeps_keys (body x)) → keeps_keys (for_of xs body).
Proof.
  intros Hbody. induction xs as [|x xs IH]; simpl.
  - apply keeps_ret.
  - apply keeps_bind; [apply Hbody | intros _; apply IH].
Qed.

Lemma keeps_for_range (bound : Z) (body : Z → M unit) :
  (∀ i, keeps_keys (body i)) → keeps_keys (for_range bound body).
Proof. intros Hbody d. rewrite for_range_for_of. by apply keeps_for_of. Qed.

Lemma keeps_try_catch {A} (m : M A) (h : error → M A) :
  keeps_keys m → (∀ e, keeps_keys (h e)) → keeps_keys (try_catch m h).
Proof.
  intros Hm Hh d. unfold try_catch.
  destruct (Hm d) as [Hk He]. destruct (m d) as [[a|e] d1]; simpl in *; [done|].
  destruct (Hh e d1) as [Hk' He']. by rewrite Hk', He'.
Qed.

Section Independence.
Context `{model : StreamDeckModel} `{hid : Transport}.

Lemma keeps_hid_call (c : call) : keeps_keys (hid_call c).
Proof. intros d. by rewrite hid_call_unfold. Qed.

Lemma keeps_checkValidKeyIndex keyIndex : keeps_keys (checkValidKeyIndex keyIndex).
Proof. unfold checkValidKeyIndex. case_decide; [apply keeps_throw | apply keeps_ret]. Qed.

Lemma keeps_checkRGBValue value : keeps_keys (checkRGBValue value).
Proof. unfold checkRGBValue. case_decide; [apply keeps_throw | apply keeps_ret]. Qed.

Lemma keeps_fillImageRange keyIndex (imageBuffer : Buffer.t) sourceOptions :
  keeps_keys (fillImageRange keyIndex imageBuffer sourceOptions).
Proof.
  unfold fillImageRange.
  apply keeps_bind; [apply keeps_checkValidKeyIndex | intros _].
  apply keeps_bind; [apply keeps_log_call | intros _].
  apply keeps_bind; [apply keeps_lift | intros byteBuffer].
  apply keeps_bind; [apply keeps_lift | intros packets].
  apply keeps_for_of. intros packet. apply keeps_hid_call.
Qed.

Lemma keeps_fillColor keyIndex r g b : keeps_keys (fillColor keyIndex r g b).
Proof.
  unfold fillColor.
  apply keeps_bind; [apply keeps_checkValidKeyIndex | intros _].
  do 3 (apply keeps_bind; [apply keeps_checkRGBValue | intros _]).
  apply keeps_bind; [apply keeps_lift | intros pixels].
  apply keeps_fillImageRange.
Qed.

Lemma keeps_resetToLogo : keeps_keys resetToLogo.
Proof. unfold resetToLogo. apply keeps_hid_call. Qed.

Lemma keeps_close : keeps_keys close.
Proof.
  unfold close.
  apply keeps_bind; [apply keeps_log_call | intros _].
  apply keeps_bind; [|intros _; apply keeps_hid_call].
  destruct (resetToLogoOnExit options); [apply keeps_resetToLogo | apply keeps_ret].
Qed.

(** X9: no drawing, brightness or teardown operation changes the key-state
    array or emits a key event, whatever its outcome. *)
Theorem write_path_keeps_keys keyIndex r g b (imageBuffer : Buffer.t)
    (fillOptions : option FillImageOptions) (percentage : Z) :
  keeps_keys (fillColor keyIndex r g b) ∧
  keeps_keys (fillImage keyIndex imageBuffer fillOptions) ∧
  keeps_keys (fillPanel imageBuffer fillOptions) ∧
  keeps_keys (clearKey keyIndex) ∧
  keeps_keys clearAllKeys ∧
  keeps_keys (setBrightness percentage) ∧
  keeps_keys resetToLogo ∧
  keeps_keys close ∧
  keeps_keys exitHookHandler.
Proof.
  assert (Hclear : ∀ k, keeps_keys (clearKey k)).
  { intros k. unfold clearKey.
    apply keeps_bind; [apply keeps_checkValidKeyIndex | intros _; apply keeps_fillColor]. }
  split_and!.
  - apply keeps_fillColor.
  - unfold fillImage.
    apply keeps_bind; [apply keeps_checkValidKeyIndex | intros _].
    apply keeps_bind; [destruct (sourceFormatOf fillOptions); apply keeps_ret | intros _].
    case_decide; [apply keeps_throw | apply keeps_fillImageRange].
  - unfold fillPanel.
    apply keeps_bind; [destruct (sourceFormatOf fillOptions); apply keeps_ret | intros _].
    case_decide; [apply keeps_throw|].
    apply keeps_for_range. intros row. apply keeps_for_range. intros column.
    apply keeps_fillImageRange.
  - apply Hclear.
  - unfold clearAllKeys. apply keeps_for_range. apply Hclear.
  - unfold setBrightness. case_decide; [apply keeps_throw | apply keeps_hid_call].
  - apply keeps_resetToLogo.
  - apply keeps_close.
  - unfold exitHookHandler. apply keeps_try_catch; [apply keeps_close|].
    intros _. apply keeps_ret.
Qed.

(** X10: the exit-hook handler never throws, and it leaves the driver as
    [close] does: the error of [close], if any, is the only thing dropped. *)
Theorem exitHookHandler_never_throws (d : Driver) :
  (exitHookHandler d).1 = Ok () ∧ (exitHookHandler d).2 = (close d).2.
Proof.
  unfold exitHookHandler, try_catch.
  by destruct (close d) as [[[]|e] d'].
Qed.

(** X11: [resetToLogo] makes exactly one call on the handle,
    [sendFeatureReport] with the 17 bytes 0B 63 00 ... 00, and its outcome is
    the outcome of that call. *)
Theorem resetToLogo_spec (d : Driver) :
  let report := Call_sendFeatureReport resetReport in
  resetToLogo d = (hid_outcome (calls d) report, logged report d) ∧
  calls (resetToLogo d).2 = calls d ++ [report] ∧
  List.length resetReport = 17%nat.
Proof.
  cbv zeta. unfold resetToLogo. cbv zeta. rewrite hid_call_unfold.
  rewrite Buffer_from_bytes by (repeat (constructor; [lia|]); constructor).
  done.
Qed.

End Independence.

(** ** The input-report listener, continued *)

Section ListenerMore.
Context `{model : StreamDeckModel}.


Lemma reportKeyData_framed (header keys : Buffer.t) (padding : Z) :
  Buffer.length header = KEY_DATA_OFFSET deviceProperties →
  reportKeyData (header ++ keys ++ [padding]) = keys.
Proof.
  unfold reportKeyData, Buffer.slice, Buffer.clamp, Buffer.length. intros Hh.
  rewrite !length_app. simpl List.length.
  repeat case_decide; try lia.
  replace (Z.to_nat (Z.min (KEY_DATA_OFFSET deviceProperties)
                       (Z.of_nat (List.length header + (List.length keys + 1)))))
    with (List.length header) by lia.
  rewrite drop_app_length.
  apply take_app_length'. lia.
Qed.

(** X13: of a report made of KEY_DATA_OFFSET leading bytes, the key bytes and
    one trailing byte, the listener uses the key bytes only: two reports with
    the same key bytes are processed alike. *)
Theorem onData_ignores_header_and_padding (header header' keys : Buffer.t)
    (padding padding' : Z) (d : Driver) :
  Buffer.length header = KEY_DATA_OFFSET deviceProperties →
  Buffer.length header' = KEY_DATA_OFFSET deviceProperties →
  reportKeyData (header ++ keys ++ [padding]) = keys ∧
  onData (header ++ keys ++ [padding]) d = onData (header' ++ keys ++ [padding']) d.
Proof.
  intros Hh Hh'. split; [by apply reportKeyData_framed|].
  by rewrite !onData_unfold, !reportKeyData_framed.
Qed.

Lemma reportKeyData_length (data : Buffer.t) :
  0 ≤ KEY_DATA_OFFSET deviceProperties →
  Buffer.length (reportKeyData data) =
  Z.max 0 (Buffer.length data - 1 - KEY_DATA_OFFSET deviceProperties).
Proof.
  unfold reportKeyData, Buffer.slice, Buffer.clamp, Buffer.length. intros Ho.
  rewrite length_take, length_drop.
  repeat case_decide; lia.
Qed.

Lemma keyPressedAt_beyond (keyData : Buffer.t) i :
  Buffer.length keyData ≤ i → keyPressedAt keyData i = false.
Proof.
  unfold keyPressedAt, Buffer.get, Buffer.length. intros Hi.
  case_decide; [|done]. by rewrite lookup_ge_None_2 by lia.
Qed.

(** X14: a report too short to cover a key releases it: after the report,
    the state cell of every key whose byte is missing holds false. *)
Theorem onData_truncated_report (data : Buffer.t) (d : Driver) :
  NoDup (transformKeyIndex <$> seqZ 0 NUM_KEYS) →
  0 ≤ KEY_DATA_OFFSET deviceProperties →
  ∀ i, 0 ≤ i < NUM_KEYS →
    Buffer.length data - 1 - KEY_DATA_OFFSET deviceProperties ≤ i →
    keyState (onData data d).2 !! transformKeyIndex i = Some false.
Proof.
  intros Hnd Ho i Hi Hshort. rewrite onData_unfold. simpl.
  rewrite keySteps_stored; [|done|apply elem_of_seqZ; lia].
  rewrite keyPressedAt_beyond; [done|].
  rewrite reportKeyData_length by done. lia.
Qed.

(** X15: after one report, the events of the next are exactly the
    differences between the two reports: one event for each key whose
    reported boolean changed, in native key order, whatever the state was
    before the first report. *)
Theorem onData_second_report (first second : Buffer.t) (d : Driver) :
  NoDup (transformKeyIndex <$> seqZ 0 NUM_KEYS) →
  let d1 := (onData first d).2 in
  emitted (onData second d1).2 =
  emitted d1 ++
  omap (λ i,
          let before := keyPressedAt (reportKeyData first) i in
          let now := keyPressedAt (reportKeyData second) i in
          if bool_decide (before ≠ now) then
            Some (if now then down (transformKeyIndex i) else up (transformKeyIndex i))
          else None)
       (seqZ 0 NUM_KEYS).
Proof.
  intros Hnd. cbv zeta. rewrite !onData_unfold. simpl.
  rewrite (keySteps_emitted (reportKeyData second)) by done. f_equal.
  apply list_omap_ext, Forall_Forall2_diag, Forall_forall. intros i Hi.
  unfold keyTransition. cbv zeta. rewrite keySteps_stored by done.
  repeat case_bool_decide; congruence.
Qed.

Lemma constructed_lookup k :
  keyState constructed !! k = if decide (0 ≤ k < NUM_KEYS) then Some false else None.
Proof.
  unfold constructed. simpl.
  assert (Hfst : ((λ i : Z, (i, false)) <$> seqZ 0 NUM_KEYS).*1 = seqZ 0 NUM_KEYS).
  { rewrite <- list_fmap_compose. rewrite <- (list_fmap_id (seqZ 0 NUM_KEYS)) at 2.
    by apply list_fmap_ext. }
  case_decide as Hk.
  - apply elem_of_list_to_map_1; [rewrite Hfst; apply NoDup_seqZ|].
    apply list_elem_of_fmap. exists k. split; [done|]. apply elem_of_seqZ. lia.
  - apply not_elem_of_list_to_map_1. rewrite Hfst, elem_of_seqZ. lia.
Qed.

Lemma keySteps_is_Some (keyData : Buffer.t) (keys : list Z) (d : Driver) k :
  (∀ i, i ∈ keys → is_Some (keyState d !! transformKeyIndex i)) →
  is_Some (keyState (foldl (keyStep keyData) d keys) !! k) ↔ is_Some (keyState d !! k).
Proof.
  revert d. induction keys as [|i keys IH]; intros d Hin; [done|]. simpl.
  assert (Hstep : ∀ k', is_Some (keyState (keyStep keyData d i) !! k') ↔
                        is_Some (keyState d !! k')).
  { intros k'. unfold keyStep. destruct (keyTransition _ _ _); [|done]. simpl.
    rewrite lookup_insert_is_Some'. split; [|auto].
    intros [<-|?]; [apply Hin; left | done]. }
  rewrite IH; [apply Hstep|].
  intros j Hj. apply Hstep, Hin. by right.
Qed.

(** X16: when the key transformer maps [0, NUM_KEYS) into itself, the state
    array keeps exactly its NUM_KEYS entries, from construction on and
    through any sequence of reports: no report makes it grow. *)
Theorem keyState_entries_stable (reports : list Buffer.t) k :
  (∀ i, 0 ≤ i < NUM_KEYS → 0 ≤ transformKeyIndex i < NUM_KEYS) →
  is_Some (keyState (foldl (λ d data, (onData data d).2) constructed reports) !! k) ↔
  0 ≤ k < NUM_KEYS.
Proof.
  intros Hrange.
  assert (Hinv : ∀ d, (∀ k', is_Some (keyState d !! k') ↔ 0 ≤ k' < NUM_KEYS) →
                      ∀ k', is_Some (keyState (foldl (λ d data, (onData data d).2) d reports)
                                       !! k') ↔ 0 ≤ k' < NUM_KEYS).
  { induction reports as [|data reports IH]; intros d Hd k'; [apply Hd|]. simpl.
    apply IH. intros k''. rewrite onData_unfold. simpl.
    rewrite keySteps_is_Some; [apply Hd|].
    intros i Hi%elem_of_seqZ. apply Hd, Hrange. lia. }
  apply Hinv. intros k'. rewrite constructed_lookup.
  case_decide; [split; [done | by eexists] | split; [by intros [? ?] | done]].
Qed.

(** X17: the first report after construction emits [down] events only, one
    for each key reported pressed, in native key order. *)
Theorem onData_first_report (data : Buffer.t) :
  NoDup (transformKeyIndex <$> seqZ 0 NUM_KEYS) →
  (∀ i, 0 ≤ i < NUM_KEYS → 0 ≤ transformKeyIndex i < NUM_KEYS) →
  emitted (onData data constructed).2 =
  omap (λ i, if keyPressedAt (reportKeyData data) i
             then Some (down (transformKeyIndex i)) else None)
       (seqZ 0 NUM_KEYS).
Proof.
  intros Hnd Hrange. rewrite onData_unfold. simpl.
  rewrite keySteps_emitted by done. simpl.
  apply list_omap_ext, Forall_Forall2_diag, Forall_forall. intros i Hi%elem_of_seqZ.
  unfold keyTransition. cbv zeta. rewrite constructed_lookup.
  rewrite decide_True by (apply Hrange; lia).
  destruct (keyPressedAt (reportKeyData data) i); by case_bool_decide.
Qed.

End ListenerMore.

(** ** The panel *)

Lemma appends_for_of_elem {A} (Q : call → Prop) (xs : list A) (body : A → M unit) :
  (∀ x, x ∈ xs → appends Q (body x)) → appends Q (for_of xs body).
Proof.
  induction xs as [|x xs IH]; intros Hbody; simpl.
  - apply appends_ret.
  - apply appends_bind; [apply Hbody; left | intros _].
    apply IH. intros y Hy. apply Hbody. by right.
Qed.

Lemma appends_for_range_bounded (Q : call → Prop) (bound : Z) (body : Z → M unit) :
  (∀ i, 0 ≤ i < bound → appends Q (body i)) → appends Q (for_range bound body).
Proof.
  intros Hbody d. rewrite for_range_for_of. apply appends_for_of_elem.
  intros i Hi%elem_of_seqZ. apply Hbody. lia.
Qed.

Lemma for_of_fmap {A B} (g : A → B) (xs : list A) (body : B → M unit) (d : Driver) :
  for_of (g <$> xs) body d = for_of xs (λ x, body (g x)) d.
Proof.
  revert d. induction xs as [|x xs IH]; intros d; [done|].
  simpl. rewrite !M_bind_unfold. destruct (body (g x) d) as [[[]|e] d']; [|done].
  apply IH.
Qed.

Lemma for_of_app {A} (xs ys : list A) (body : A → M unit) (d : Driver) :
  for_of (xs ++ ys) body d = (for_of xs body;; for_of ys body) d.
Proof.
  revert d. induction xs as [|x xs IH]; intros d; [done|].
  simpl. rewrite !M_bind_unfold. destruct (body x d) as [[[]|e] d']; [|done].
  rewrite IH. by rewrite M_bind_unfold.
Qed.

Lemma for_of_bind {A B} (g : A → list B) (xs : list A) (body : B → M unit) (d : Driver) :
  for_of (xs ≫= g) body d = for_of xs (λ x, for_of (g x) body) d.
Proof.
  revert d. induction xs as [|x xs IH]; intros d; [done|].
  rewrite bind_cons, for_of_app. simpl. rewrite !M_bind_unfold.
  destruct (for_of (g x) body d) as [[[]|e] d']; [|done].
  apply IH.
Qed.

Section Panel.
Context `{model : StreamDeckModel} `{hid : Transport}.

Lemma fillImageRange_appends_calls (Q : call → Prop) keyIndex (imageBuffer : Buffer.t)
    sourceOptions :
  Q (Call_convertFillImage imageBuffer sourceOptions) →
  (∀ packet, Q (Call_write packet)) →
  appends Q (fillImageRange keyIndex imageBuffer sourceOptions).
Proof.
  intros Hconv Hwrite. unfold fillImageRange.
  apply appends_bind; [apply appends_checkValidKeyIndex | intros _].
  apply appends_bind; [by apply appends_log_call | intros _].
  apply appends_bind; [apply appends_lift | intros byteBuffer].
  apply appends_bind; [apply appends_lift | intros packets].
  apply appends_for_of. intros packet. by apply appends_hid_call.
Qed.

(** The region of the cell at [row], [column] lies inside a panel image of
    the checked length. *)
Lemma panelCell_region_inside sourceFormat row column :
  0 < ICON_SIZE deviceProperties →
  0 ≤ row < KEY_ROWS → 0 ≤ column < KEY_COLUMNS →
  let sourceOptions := (panelCell sourceFormat row column).2 in
  0 ≤ offset sourceOptions ∧
  offset sourceOptions
    + (ICON_SIZE deviceProperties - 1) * stride sourceOptions
    + ICON_SIZE deviceProperties * format_length sourceFormat
  ≤ ICON_PIXELS * format_length sourceFormat * NUM_KEYS.
Proof.
  intros HS Hrow Hcol. unfold panelCell, ICON_PIXELS, NUM_KEYS. simpl.
  set (S := ICON_SIZE deviceProperties) in *.
  set (C := KEY_COLUMNS) in *. set (R := KEY_ROWS) in *.
  assert (HL : 0 < format_length sourceFormat) by (destruct sourceFormat; simpl; lia).
  set (L := format_length sourceFormat) in *.
  assert (HI : 0 < S * L) by nia.
  set (I := S * L) in *.
  assert (HIC : 0 ≤ I * C) by nia.
  assert (HICS : 0 ≤ I * C * S) by nia.
  assert (Hr : I * C * S * row ≤ I * C * S * (R - 1)) by (apply Z.mul_le_mono_nonneg_l; lia).
  assert (Hc : column * I ≤ (C - 1) * I) by (apply Z.mul_le_mono_nonneg_r; lia).
  assert (Hr0 : 0 ≤ I * C * S * row) by (apply Z.mul_nonneg_nonneg; lia).
  assert (Hc0 : 0 ≤ column * I) by (apply Z.mul_nonneg_nonneg; lia).
  split.
  - replace (I * C * row * S) with (I * C * S * row) by ring. lia.
  - replace (I * C * row * S) with (I * C * S * row) by ring.
    replace (S * S * L * (C * R)) with (I * C * S * (R - 1) + (C - 1) * I
                                         + (S - 1) * (I * C) + I)
      by (subst I; ring).
    lia.
Qed.

(** X18: every converter call that [fillPanel] makes is made on the panel
    image itself, with a region that lies inside it: the offset is not
    negative and the last of the ICON_SIZE icon rows ends within the
    buffer. *)
Theorem fillPanel_regions_inside (imageBuffer : Buffer.t)
    (fillOptions : option FillImageOptions) :
  0 < ICON_SIZE deviceProperties →
  appends (panelRegionInside imageBuffer) (fillPanel imageBuffer fillOptions).
Proof.
  intros HS. unfold fillPanel. cbv zeta.
  apply appends_bind;
    [destruct (sourceFormatOf fillOptions); apply appends_ret | intros _].
  case_decide as Hlen; [apply appends_throw|].
  apply appends_for_range_bounded. intros row Hrow.
  apply appends_for_range_bounded. intros column Hcol.
  apply fillImageRange_appends_calls; [|done].
  destruct (panelCell_region_inside (sourceFormatOf fillOptions) row column)
    as [Hoff Hend]; [done..|].
  simpl. split; [done|]. rewrite Hlen. done.
Qed.

Lemma panelCell_key sourceFormat row column :
  (panelCell sourceFormat row column).1 =
  match KEY_DIRECTION deviceProperties with
  | ltr => row * KEY_COLUMNS + column
  | rtl => row * KEY_COLUMNS + (KEY_COLUMNS - column - 1)
  end.
Proof. unfold panelCell. simpl. by destruct (KEY_DIRECTION deviceProperties). Qed.

(** The keys of one row of the panel. *)
Lemma panelRow_keys sourceFormat row :
  0 ≤ KEY_COLUMNS →
  (panelCell sourceFormat row <$> seqZ 0 KEY_COLUMNS).*1 ≡ₚ
    seqZ (row * KEY_COLUMNS) KEY_COLUMNS ∧
  (KEY_DIRECTION deviceProperties = ltr →
   (panelCell sourceFormat row <$> seqZ 0 KEY_COLUMNS).*1 =
     seqZ (row * KEY_COLUMNS) KEY_COLUMNS).
Proof.
  intros HC. rewrite <- list_fmap_compose.
  assert (Hltr : KEY_DIRECTION deviceProperties = ltr →
                 fst ∘ panelCell sourceFormat row <$> seqZ 0 KEY_COLUMNS =
                 seqZ (row * KEY_COLUMNS) KEY_COLUMNS).
  { intros Hd.
    replace (seqZ (row * KEY_COLUMNS) KEY_COLUMNS)
      with (seqZ (row * KEY_COLUMNS + 0) KEY_COLUMNS) by (f_equal; lia).
    rewrite <- fmap_add_seqZ.
    apply list_fmap_ext. intros _ column _. unfold compose. by rewrite panelCell_key, Hd. }
  split; [|done].
  destruct (KEY_DIRECTION deviceProperties) eqn:Hd; [by rewrite Hltr|].
  apply NoDup_Permutation.
  - apply NoDup_fmap_2_strong; [|apply NoDup_seqZ].
    intros x y _ _. unfold compose. rewrite !panelCell_key, Hd. lia.
  - apply NoDup_seqZ.
  - intros k. rewrite list_elem_of_fmap, elem_of_seqZ. split.
    + intros (column & -> & Hc%elem_of_seqZ). unfold compose. rewrite panelCell_key, Hd. lia.
    + intros Hk. exists (row * KEY_COLUMNS + KEY_COLUMNS - 1 - k). split.
      * unfold compose. rewrite panelCell_key, Hd. lia.
      * apply elem_of_seqZ. lia.
Qed.

Lemma panelRows_keys sourceFormat (n : nat) :
  0 ≤ KEY_COLUMNS →
  (seqZ 0 (Z.of_nat n) ≫= λ row, panelCell sourceFormat row <$> seqZ 0 KEY_COLUMNS).*1 ≡ₚ
    seqZ 0 (Z.of_nat n * KEY_COLUMNS) ∧
  (KEY_DIRECTION deviceProperties = ltr →
   (seqZ 0 (Z.of_nat n) ≫= λ row, panelCell sourceFormat row <$> seqZ 0 KEY_COLUMNS).*1 =
     seqZ 0 (Z.of_nat n * KEY_COLUMNS)).
Proof.
  intros HC. induction n as [|n [IHp IHe]].
  - by rewrite (seqZ_nil 0 (Z.of_nat 0)), (seqZ_nil 0 (Z.of_nat 0 * KEY_COLUMNS)) by lia.
  - rewrite seqZ_S, bind_app, fmap_app, bind_singleton, Z.add_0_l.
    destruct (panelRow_keys sourceFormat (Z.of_nat n) HC) as [Hp He].
    replace (Z.of_nat (S n) * KEY_COLUMNS)
      with (Z.of_nat n * KEY_COLUMNS + KEY_COLUMNS) by lia.
    rewrite seqZ_app by nia. rewrite Z.add_0_l. split.
    + by rewrite IHp, Hp.
    + intros Hd. by rewrite IHe, He.
Qed.

(** X19: with a panel image of the checked length, [fillPanel] is one
    [fillImageRange] per cell of the grid, row by row; the native key indices
    it draws are exactly 0, ..., NUM_KEYS - 1, each once, and in ascending
    order on a left-to-right model. *)
Theorem fillPanel_each_key_once (imageBuffer : Buffer.t)
    (fillOptions : option FillImageOptions) (d : Driver) :
  let sourceFormat := sourceFormatOf fillOptions in
  0 ≤ KEY_COLUMNS → 0 ≤ KEY_ROWS →
  Buffer.length imageBuffer = ICON_PIXELS * format_length sourceFormat * NUM_KEYS →
  fillPanel imageBuffer fillOptions d =
    for_of (panelCells sourceFormat)
      (λ cell, fillImageRange cell.1 imageBuffer cell.2) d ∧
  (panelCells sourceFormat).*1 ≡ₚ seqZ 0 NUM_KEYS ∧
  (KEY_DIRECTION deviceProperties = ltr →
   (panelCells sourceFormat).*1 = seqZ 0 NUM_KEYS).
Proof.
  cbv zeta. intros HC HR Hlen. split.
  - unfold fillPanel, panelCells. cbv zeta. rewrite M_bind_unfold.
    assert (Hfmt : checkSourceFormat (sourceFormatOf fillOptions) d = (Ok (), d))
      by (by destruct (sourceFormatOf fillOptions)).
    rewrite Hfmt. case_decide; [done|].
    rewrite for_range_for_of, for_of_bind.
    apply for_of_ext. intros row d' _.
    rewrite for_range_for_of, for_of_fmap. done.
  - unfold panelCells, NUM_KEYS.
    destruct (panelRows_keys (sourceFormatOf fillOptions) (Z.to_nat KEY_ROWS) HC)
      as [Hp He].
    rewrite Z2Nat.id in Hp, He by done.
    replace (KEY_COLUMNS * KEY_ROWS) with (KEY_ROWS * KEY_COLUMNS) by lia.
    done.
Qed.

End Panel.

Lemma fillPanel_regions_inside_witness :
  appends (@panelRegionInside duo [1; 2; 3; 4; 5; 6])
    (@fillPanel duo reliable [1; 2; 3; 4; 5; 6] None).
Proof.
  apply (@fillPanel_regions_inside duo reliable [1; 2; 3; 4; 5; 6] None). reflexivity.
Defined.

Lemma fillPanel_each_key_once_witness :
  @fillPanel duo reliable [1; 2; 3; 4; 5; 6] None (@constructed duo) =
    for_of (@panelCells duo rgb)
      (λ cell, @fillImageRange duo reliable cell.1 [1; 2; 3; 4; 5; 6] cell.2)
      (@constructed duo) ∧
  (@panelCells duo rgb).*1 ≡ₚ seqZ 0 (@NUM_KEYS duo) ∧
  (KEY_DIRECTION (@deviceProperties duo) = ltr →
   (@panelCells duo rgb).*1 = seqZ 0 (@NUM_KEYS duo)).
Proof.
  apply (@fillPanel_each_key_once duo reliable [1; 2; 3; 4; 5; 6] None (@constructed duo)).
  - discriminate.
  - discriminate.
  - reflexivity.
Defined.

(** The panel of the two-key right-to-left model: the left half of the image
    goes to native key 1, the right half to native key 0. *)
Example panelCells_duo :
  @panelCells duo rgb =
  [(1, {| i_format := rgb; offset := 0; stride := 6 |});
   (0, {| i_format := rgb; offset := 3; stride := 6 |})].
Proof. vm_compute. reflexivity. Qed.

(** ** The listener on concrete reports *)

Lemma onData_ignores_header_and_padding_witness :
  @reportKeyData duo ([1] ++ [1; 0] ++ [0]) = [1; 0] ∧
  @onData duo ([1] ++ [1; 0] ++ [0]) (@constructed duo) =
  @onData duo ([9] ++ [1; 0] ++ [5]) (@constructed duo).
Proof.
  apply (@onData_ignores_header_and_padding duo [1] [9] [1; 0] 0 5 (@constructed duo));
    reflexivity.
Defined.

Lemma onData_truncated_report_witness :
  keyState (@onData duo [1; 1; 0] (@constructed duo)).2 !! @transformKeyIndex duo 1
  = Some false.
Proof.
  apply (@onData_truncated_report duo [1; 1; 0] (@constructed duo)).
  - apply (bool_decide_unpack _). vm_compute. exact I.
  - discriminate.
  - split; [discriminate | reflexivity].
  - discriminate.
Defined.

Lemma onData_second_report_witness :
  let d1 := (@onData duo [1; 1; 0; 0] (@constructed duo)).2 in
  emitted (@onData duo [1; 0; 1; 0] d1).2 =
  emitted d1 ++
  omap (λ i,
          let before := keyPressedAt (@reportKeyData duo [1; 1; 0; 0]) i in
          let now := keyPressedAt (@reportKeyData duo [1; 0; 1; 0]) i in
          if bool_decide (before ≠ now) then
            Some (if now then down (@transformKeyIndex duo i)
                  else up (@transformKeyIndex duo i))
          else None)
       (seqZ 0 (@NUM_KEYS duo)).
Proof.
  apply (@onData_second_report duo [1; 1; 0; 0] [1; 0; 1; 0] (@constructed duo)).
  apply (bool_decide_unpack _). vm_compute. exact I.
Defined.

(** Native key 0 released and native key 1 pressed: logical keys 1 and 0. *)
Example onData_two_reports :
  emitted (@onData duo [1; 0; 1; 0] (@onData duo [1; 1; 0; 0] (@constructed duo)).2).2 =
  [down 1; up 1; down 0].
Proof. vm_compute. reflexivity. Qed.

Lemma duo_transform_in_range :
  ∀ i, 0 ≤ i < @NUM_KEYS duo → 0 ≤ @transformKeyIndex duo i < @NUM_KEYS duo.
Proof.
  intros i Hi. change (@NUM_KEYS duo) with 2 in *.
  assert (i = 0 ∨ i = 1) as [->| ->] by lia; vm_compute; split; discriminate || reflexivity.
Defined.

Lemma keyState_entries_stable_witness :
  is_Some (keyState (foldl (λ d data, (@onData duo data d).2) (@constructed duo)
                       [[1; 1; 0; 0]; [1; 0; 1; 0]]) !! 1) ↔
  0 ≤ 1 < @NUM_KEYS duo.
Proof.
  apply (@keyState_entries_stable duo [[1; 1; 0; 0]; [1; 0; 1; 0]] 1).
  apply duo_transform_in_range.
Defined.

Lemma onData_first_report_witness :
  emitted (@onData duo [1; 1; 0; 0] (@constructed duo)).2 =
  omap (λ i, if keyPressedAt (@reportKeyData duo [1; 1; 0; 0]) i
             then Some (down (@transformKeyIndex duo i)) else None)
       (seqZ 0 (@NUM_KEYS duo)).
Proof.
  apply (@onData_first_report duo [1; 1; 0; 0]).
  - apply (bool_decide_unpack _). vm_compute. exact I.
  - apply duo_transform_in_range.
Defined.

(** ** The rapid-fill demo *)

Module RapidFillDemoFacts.
Import RapidFillDemo.

Section Guard.
Context `{browser : Browser}.

(** What the guard maintains: the running intervals of the page are the one
    stored in the demo, if any. *)
Lemma run_invariant (s : Demo * Window) (o : op) :
  (∀ l, nextHandle l ≠ 0) →
  active s.2 = option_list (interval s.1) →
  interval s.1 ≠ Some 0 →
  active (run s o).2 = option_list (interval (run s o).1) ∧
  interval (run s o).1 ≠ Some 0.
Proof.
  intros Hnz Hact Hint. destruct s as [[[h|]] w]; destruct o; simpl in *.
  - unfold start, notStarted. simpl. case_bool_decide; [congruence|done].
  - unfold stop. simpl. case_bool_decide; [congruence|]. simpl.
    rewrite Hact. simpl option_list.
    rewrite filter_cons_False by (intros Hne; by apply Hne). done.
  - unfold start, notStarted, setInterval. simpl. rewrite Hact. simpl.
    split; [done|]. intros [= Hz]. by apply (Hnz (issued w)).
  - done.
Qed.

(** X20: in a browser whose interval handles are never 0, whatever sequence
    of [start] and [stop] calls is made on a new demo, at most one interval
    is running at any time, and it is the one whose handle the demo holds:
    a repeated [start] registers nothing, a [stop] clears the interval. *)
Theorem guard_keeps_one_interval (handles : list Z) (ops : list op) :
  (∀ l, nextHandle l ≠ 0) →
  let s := foldl run (newDemo handles) ops in
  active s.2 = option_list (interval s.1) ∧ (List.length (active s.2) ≤ 1)%nat.
Proof.
  intros Hnz. cbv zeta.
  assert (Hinv : ∀ s, active s.2 = option_list (interval s.1) → interval s.1 ≠ Some 0 →
                      active (foldl run s ops).2 = option_list (interval (foldl run s ops).1)).
  { induction ops as [|o ops IH]; intros s Hact Hint; [done|]. simpl.
    destruct (run_invariant s o Hnz Hact Hint) as [Hact' Hint']. by apply IH. }
  assert (Hfresh : active (foldl run (newDemo handles) ops).2 =
                   option_list (interval (foldl run (newDemo handles) ops).1))
    by (by apply Hinv).
  split; [done|]. rewrite Hfresh.
  destruct (interval (foldl run (newDemo handles) ops).1); simpl; lia.
Qed.

(** X21: a handle 0 defeats the guard.  If the browser returns 0 to a new
    demo's [start], the demo still counts as not started: [stop] leaves that
    interval running, and the next [start] registers a second one. *)
Theorem zero_handle_defeats_guard (handles : list Z) :
  nextHandle handles = 0 →
  let started := start (newDemo handles) in
  active started.2 = [0] ∧
  stop started = started ∧
  active (start started).2 = [0; nextHandle (handles ++ [0])].
Proof.
  intros Hz. cbv zeta.
  unfold start, stop, newDemo, notStarted, setInterval. simpl. rewrite Hz. simpl.
  done.
Qed.

End Guard.

Lemma guard_keeps_one_interval_witness :
  let s := foldl (@run counting) (newDemo [1; 2]) [Start; Start; Stop; Start] in
  active s.2 = option_list (interval s.1) ∧ (List.length (active s.2) ≤ 1)%nat.
Proof.
  apply (@guard_keeps_one_interval counting [1; 2] [Start; Start; Stop; Start]).
  intros l. simpl. lia.
Defined.

Lemma zero_handle_defeats_guard_witness :
  let started := @start zeroBased (newDemo []) in
  active started.2 = [0] ∧
  stop started = started ∧
  active (@start zeroBased started).2 = [0; @nextHandle zeroBased ([] ++ [0])].
Proof.
  apply (@zero_handle_defeats_guard zeroBased []). reflexivity.
Defined.

End RapidFillDemoFacts.

(** ** Teardown and reports, continued *)

Section Teardown.
Context `{model : StreamDeckModel} `{hid : Transport}.

(** X22: [close] releases the exit hook before anything else, and it
    returns normally only after [device.close()] was called, as its last
    call, and accepted by the transport. *)
Theorem close_returns_after_closing (d : Driver) :
  (∃ rest, calls (close d).2 = calls d ++ Call_releaseExitHook :: rest) ∧
  ((close d).1 = Ok () →
   ∃ mid,
     calls (close d).2 = calls d ++ Call_releaseExitHook :: mid ++ [Call_close] ∧
     hid_fault (calls d ++ Call_releaseExitHook :: mid) Call_close = None).
Proof.
  unfold close. run_binds.
  destruct (resetToLogoOnExit options).
  - rewrite resetToLogo_unfold. unfold hid_outcome, logged. simpl.
    destruct (hid_fault (calls d ++ [Call_releaseExitHook])
                (Call_sendFeatureReport resetReport)) as [code|] eqn:Hreset; simpl.
    + split; [|done]. eexists. by rewrite <- app_assoc.
    + rewrite hid_call_unfold. unfold hid_outcome, logged. simpl.
      rewrite <- !app_assoc. simpl.
      split; [by eexists|].
      destruct (hid_fault _ Call_close) eqn:Hclose; [done|]. intros _.
      by exists [Call_sendFeatureReport resetReport].
  - unfold mret, M_ret. cbn beta iota.
    rewrite hid_call_unfold. unfold hid_outcome, logged. simpl.
    rewrite <- !app_assoc. simpl.
    split; [by eexists|].
    destruct (hid_fault _ Call_close) eqn:Hclose; [done|]. intros _.
    by exists [].
Qed.

End Teardown.

Section ReportBooleans.
Context `{model : StreamDeckModel}.

Lemma keySteps_same_booleans (a b : Buffer.t) (keys : list Z) (d : Driver) :
  (∀ i, i ∈ keys → keyPressedAt a i = keyPressedAt b i) →
  foldl (keyStep a) d keys = foldl (keyStep b) d keys.
Proof.
  revert d. induction keys as [|i keys IH]; intros d Hsame; [done|]. simpl.
  assert (Hstep : keyStep a d i = keyStep b d i).
  { unfold keyStep, keyTransition. cbv zeta. by rewrite (Hsame i) by left. }
  rewrite Hstep. apply IH. intros j Hj. apply Hsame. by right.
Qed.

(** X23: of the key bytes the listener only uses, for each of the NUM_KEYS
    keys, whether the byte is present and not zero: two reports that agree
    on these booleans are processed alike, whatever the non-zero values and
    whatever follows the NUM_KEYS-th key byte. *)
Theorem onData_uses_booleans_only (a b : Buffer.t) (d : Driver) :
  (∀ i, 0 ≤ i < NUM_KEYS →
     keyPressedAt (reportKeyData a) i = keyPressedAt (reportKeyData b) i) →
  onData a d = onData b d.
Proof.
  intros Hsame. rewrite !onData_unfold. f_equal.
  apply keySteps_same_booleans. intros i Hi%elem_of_seqZ. apply Hsame. lia.
Qed.

End ReportBooleans.

Lemma close_returns_after_closing_witness :
  (∃ rest, calls (@close duo reliable (@constructed duo)).2 =
           calls (@constructed duo) ++ Call_releaseExitHook :: rest) ∧
  ((@close duo reliable (@constructed duo)).1 = Ok () →
   ∃ mid,
     calls (@close duo reliable (@constructed duo)).2 =
       calls (@constructed duo) ++ Call_releaseExitHook :: mid ++ [Call_close] ∧
     @hid_fault reliable (calls (@constructed duo) ++ Call_releaseExitHook :: mid)
       Call_close = None).
Proof. apply (@close_returns_after_closing duo reliable (@constructed duo)). Defined.

Lemma duo_same_booleans :
  ∀ i, 0 ≤ i < @NUM_KEYS duo →
    keyPressedAt (@reportKeyData duo [1; 1; 0; 0]) i =
    keyPressedAt (@reportKeyData duo [7; 255; 0; 9; 9; 9]) i.
Proof.
  intros i Hi. change (@NUM_KEYS duo) with 2 in *.
  assert (i = 0 ∨ i = 1) as [->| ->] by lia; vm_compute; reflexivity.
Defined.

Lemma onData_uses_booleans_only_witness :
  @onData duo [1; 1; 0; 0] (@constructed duo) =
  @onData duo [7; 255; 0; 9; 9; 9] (@constructed duo).
Proof.
  apply (@onData_uses_booleans_only duo [1; 1; 0; 0] [7; 255; 0; 9; 9; 9]
           (@constructed duo)).
  apply duo_same_booleans.
Defined.
